(** * GameClient (src/game.js): movement controller, protocol reducer, viewport

    A shallow embedding of the [GameClient] class.  Every method becomes a
    computation in a small state-and-exception monad over the fields of the
    instance together with the part of the browser the methods talk to
    (the WebSocket, the interval timers, the console, the canvas).

    Conventions of the embedding:
    - a JavaScript object used as a table ([players], [avatars], the payload
      tables of a message) is a finite map over its own properties;
      identifiers and avatar names are taken to differ from the property
      names every object inherits ([constructor], [toString], ...);
    - [keysPressed], whose key order is read back through [Object.keys], is
      the list of its own keys in insertion order;
    - an object received from the server carries a reference ([ref]) that
      stands for its identity: no method ever writes a field of an entity or
      of an avatar definition, so a reference together with the contents it
      was created with describes the object for its whole life;
    - numbers are exact rationals, which is what the doubles of JavaScript
      compute as long as no operation rounds; [Binary64] reads
      [worldToScreen] over IEEE-754 doubles as well, to delimit where
      exactness ends. *)

From Stdlib Require Import ZArith QArith Qminmax Floats Lia Lqa.
From stdpp Require Import base option strings list sorting gmap fin_maps.

Local Open Scope string_scope.
Local Open Scope list_scope.
Local Open Scope nat_scope.

(** ** Data model *)

Inductive Direction := up | down | left | right.

#[global] Instance Direction_eq_dec : EqDecision Direction.
Proof. solve_decision. Defined.

(** [WebSocket.readyState]. *)
Inductive ReadyState := CONNECTING | OPEN | CLOSING | CLOSED.

#[global] Instance ReadyState_eq_dec : EqDecision ReadyState.
Proof. solve_decision. Defined.

(** A player object as the server describes it. *)
Module Player.
Record t := mk {
  ref : positive;
  id : string;
  x : Q;
  y : Q;
  facing : string;
  animationFrame : nat;
  avatar : string;
  username : string }.
End Player.

(** An avatar definition: for each facing, its frames (encoded bitmaps). *)
Module Avatar.
Record t := mk {
  ref : positive;
  name : string;
  frames : gmap string (list string) }.
End Avatar.

(** A message of the server, after [JSON.parse].  [action] is the tag the
    handler switches on; the other fields are the ones the handler reads for
    some tag.  [msg_player] and [msg_avatar] may be missing: the handler reads
    a property of each, which throws on [undefined].  The other fields are
    taken to have the type the protocol gives them whenever the tag at hand
    reads them; for a tag that does not, their value is immaterial. *)
Record ServerMessage := mkMessage {
  action : string;
  success : bool;
  msg_playerId : string;
  msg_players : gmap string Player.t;
  msg_avatars : gmap string Avatar.t;
  msg_player : option Player.t;
  msg_avatar : option Avatar.t;
  msg_error : string }.

(** What the client hands to [ws.send]. *)
Inductive ClientMessage :=
| join_game_msg (username : string)
| move_msg (direction : Direction)
| stop_msg.

Inductive LogEntry :=
| log_connected
| log_disconnected
| log_ws_error
| log_received (message : ServerMessage)
| log_join_failed (error : string)
| log_player_moved (x y : Q)
| log_no_myPlayer
| log_viewport_centered (vx vy px py : Q)
| log_drawing (n : nat).

(** One call of [draw] that reached the canvas: the source rectangle of the
    world map. *)
Record Paint := mkPaint { paint_x : Q; paint_y : Q; paint_w : Z; paint_h : Z }.

Inductive Exn := SyntaxError | TypeError | InvalidStateError.

(** The fields of the instance, then the browser state the methods act on. *)
Record State := mkState {
  canvas_width : Z;
  canvas_height : Z;
  worldImage : option string;
  ws : option ReadyState;
  playerId : option string;
  players : gmap string Player.t;
  avatars : gmap string Avatar.t;
  myPlayer : option Player.t;
  viewportX : Q;
  viewportY : Q;
  keysPressed : list string;
  currentMovement : option Direction;
  movementInterval : option positive;
  (* browser *)
  timers : gset positive;
  nextTimer : positive;
  sent : list string;
  console : list LogEntry;
  canvas : list Paint }.

Definition worldWidth : Z := 2048.
Definition worldHeight : Z := 2048.

Definition set_canvas_size (w h : Z) (s : State) : State :=
  mkState w h (worldImage s) (ws s) (playerId s) (players s) (avatars s)
    (myPlayer s) (viewportX s) (viewportY s) (keysPressed s)
    (currentMovement s) (movementInterval s) (timers s) (nextTimer s)
    (sent s) (console s) (canvas s).

Definition set_ws (v : option ReadyState) (s : State) : State :=
  mkState (canvas_width s) (canvas_height s) (worldImage s) v (playerId s)
    (players s) (avatars s) (myPlayer s) (viewportX s) (viewportY s)
    (keysPressed s) (currentMovement s) (movementInterval s) (timers s)
    (nextTimer s) (sent s) (console s) (canvas s).

Definition set_playerId (v : option string) (s : State) : State :=
  mkState (canvas_width s) (canvas_height s) (worldImage s) (ws s) v
    (players s) (avatars s) (myPlayer s) (viewportX s) (viewportY s)
    (keysPressed s) (currentMovement s) (movementInterval s) (timers s)
    (nextTimer s) (sent s) (console s) (canvas s).

Definition set_players (v : gmap string Player.t) (s : State) : State :=
  mkState (canvas_width s) (canvas_height s) (worldImage s) (ws s)
    (playerId s) v (avatars s) (myPlayer s) (viewportX s) (viewportY s)
    (keysPressed s) (currentMovement s) (movementInterval s) (timers s)
    (nextTimer s) (sent s) (console s) (canvas s).

Definition set_avatars (v : gmap string Avatar.t) (s : State) : State :=
  mkState (canvas_width s) (canvas_height s) (worldImage s) (ws s)
    (playerId s) (players s) v (myPlayer s) (viewportX s) (viewportY s)
    (keysPressed s) (currentMovement s) (movementInterval s) (timers s)
    (nextTimer s) (sent s) (console s) (canvas s).

Definition set_myPlayer (v : option Player.t) (s : State) : State :=
  mkState (canvas_width s) (canvas_height s) (worldImage s) (ws s)
    (playerId s) (players s) (avatars s) v (viewportX s) (viewportY s)
    (keysPressed s) (currentMovement s) (movementInterval s) (timers s)
    (nextTimer s) (sent s) (console s) (canvas s).

Definition set_viewportX (v : Q) (s : State) : State :=
  mkState (canvas_width s) (canvas_height s) (worldImage s) (ws s)
    (playerId s) (players s) (avatars s) (myPlayer s) v (viewportY s)
    (keysPressed s) (currentMovement s) (movementInterval s) (timers s)
    (nextTimer s) (sent s) (console s) (canvas s).

Definition set_viewportY (v : Q) (s : State) : State :=
  mkState (canvas_width s) (canvas_height s) (worldImage s) (ws s)
    (playerId s) (players s) (avatars s) (myPlayer s) (viewportX s) v
    (keysPressed s) (currentMovement s) (movementInterval s) (timers s)
    (nextTimer s) (sent s) (console s) (canvas s).

Definition set_keysPressed (v : list string) (s : State) : State :=
  mkState (canvas_width s) (canvas_height s) (worldImage s) (ws s)
    (playerId s) (players s) (avatars s) (myPlayer s) (viewportX s)
    (viewportY s) v (currentMovement s) (movementInterval s) (timers s)
    (nextTimer s) (sent s) (console s) (canvas s).

Definition set_currentMovement (v : option Direction) (s : State) : State :=
  mkState (canvas_width s) (canvas_height s) (worldImage s) (ws s)
    (playerId s) (players s) (avatars s) (myPlayer s) (viewportX s)
    (viewportY s) (keysPressed s) v (movementInterval s) (timers s)
    (nextTimer s) (sent s) (console s) (canvas s).

Definition set_movementInterval (v : option positive) (s : State) : State :=
  mkState (canvas_width s) (canvas_height s) (worldImage s) (ws s)
    (playerId s) (players s) (avatars s) (myPlayer s) (viewportX s)
    (viewportY s) (keysPressed s) (currentMovement s) v (timers s)
    (nextTimer s) (sent s) (console s) (canvas s).

Definition set_timers (v : gset positive) (n : positive) (s : State) : State :=
  mkState (canvas_width s) (canvas_height s) (worldImage s) (ws s)
    (playerId s) (players s) (avatars s) (myPlayer s) (viewportX s)
    (viewportY s) (keysPressed s) (currentMovement s) (movementInterval s)
    v n (sent s) (console s) (canvas s).

Definition set_sent (v : list string) (s : State) : State :=
  mkState (canvas_width s) (canvas_height s) (worldImage s) (ws s)
    (playerId s) (players s) (avatars s) (myPlayer s) (viewportX s)
    (viewportY s) (keysPressed s) (currentMovement s) (movementInterval s)
    (timers s) (nextTimer s) v (console s) (canvas s).

Definition set_console (v : list LogEntry) (s : State) : State :=
  mkState (canvas_width s) (canvas_height s) (worldImage s) (ws s)
    (playerId s) (players s) (avatars s) (myPlayer s) (viewportX s)
    (viewportY s) (keysPressed s) (currentMovement s) (movementInterval s)
    (timers s) (nextTimer s) (sent s) v (canvas s).

Definition set_canvas (v : list Paint) (s : State) : State :=
  mkState (canvas_width s) (canvas_height s) (worldImage s) (ws s)
    (playerId s) (players s) (avatars s) (myPlayer s) (viewportX s)
    (viewportY s) (keysPressed s) (currentMovement s) (movementInterval s)
    (timers s) (nextTimer s) (sent s) (console s) v.

(** ** The monad of methods

    A method either returns a value or throws; in both cases the writes it
    made to the instance stay. *)

Inductive Outcome (A : Type) :=
| Returns (a : A) (s : State)
| Throws (e : Exn) (s : State).
Arguments Returns {A} a s.
Arguments Throws {A} e s.

Definition M (A : Type) : Type := State → Outcome A.

#[global] Instance M_ret : MRet M := λ A a s, Returns a s.

#[global] Instance M_bind : MBind M := λ A B f m s,
  match m s with
  | Returns a s' => f a s'
  | Throws e s' => Throws e s'
  end.

Definition get : M State := λ s, Returns s s.
Definition modify (f : State → State) : M unit := λ s, Returns tt (f s).
Definition throw {A} (e : Exn) : M A := λ s, Throws e s.

(** The state a handler leaves behind, however it ends. *)
Definition final {A} (o : Outcome A) : State :=
  match o with Returns _ s => s | Throws _ s => s end.

Definition throws {A} (o : Outcome A) : bool :=
  match o with Returns _ _ => false | Throws _ _ => true end.

(** ** Browser interface *)

Definition console_log (e : LogEntry) : M unit :=
  modify (λ s, set_console (console s ++ [e]) s).

(** [setInterval]: timer identifiers are positive integers, handed out in
    increasing order. *)
Definition setInterval : M positive :=
  s ← get;
  let id := nextTimer s in
  modify (set_timers ({[id]} ∪ timers s) (Pos.succ id));;
  mret id.

Definition clearInterval (id : positive) : M unit :=
  modify (λ s, set_timers (timers s ∖ {[id]}) (nextTimer s) s).

Definition quote : string := String (Ascii.ascii_of_nat 34) EmptyString.
Definition quoted (s : string) : string := quote +:+ s +:+ quote.

Definition direction_name (d : Direction) : string :=
  match d with up => "up" | down => "down" | left => "left" | right => "right" end.

(** [JSON.stringify] on the three object literals the client sends. *)
Definition JSON_stringify (m : ClientMessage) : string :=
  match m with
  | join_game_msg u =>
      "{" +:+ quoted "action" +:+ ":" +:+ quoted "join_game" +:+ ","
          +:+ quoted "username" +:+ ":" +:+ quoted u +:+ "}"
  | move_msg d =>
      "{" +:+ quoted "action" +:+ ":" +:+ quoted "move" +:+ ","
          +:+ quoted "direction" +:+ ":" +:+ quoted (direction_name d) +:+ "}"
  | stop_msg => "{" +:+ quoted "action" +:+ ":" +:+ quoted "stop" +:+ "}"
  end.

(** [this.ws.send(data)].  On a [null] socket the property access throws; the
    WebSocket interface throws while the socket is still connecting, queues
    the frame when it is open, and discards it once closing or closed. *)
Definition ws_send (data : string) : M unit :=
  s ← get;
  match ws s with
  | None => throw TypeError
  | Some CONNECTING => throw InvalidStateError
  | Some OPEN => modify (set_sent (sent s ++ [data]))
  | Some _ => mret tt
  end.

(** [!this.ws || this.ws.readyState !== WebSocket.OPEN] *)
Definition ws_not_open (s : State) : bool :=
  match ws s with
  | Some OPEN => false
  | _ => true
  end.

(** ** Movement controller *)

(** [keyMap[key]]: the direction of an arrow key, [undefined] for any other
    key of a keyboard event. *)
Definition getDirectionFromKey (key : string) : option Direction :=
  if String.eqb key "ArrowUp" then Some up
  else if String.eqb key "ArrowDown" then Some down
  else if String.eqb key "ArrowLeft" then Some left
  else if String.eqb key "ArrowRight" then Some right
  else None.

Definition sendMovementCommand (direction : Direction) : M unit :=
  s ← get;
  if ws_not_open s then mret tt
  else
    ws_send (JSON_stringify (move_msg direction));;
    modify (set_currentMovement (Some direction)).

Definition sendStopCommand : M unit :=
  s ← get;
  if ws_not_open s then mret tt
  else
    ws_send (JSON_stringify stop_msg);;
    modify (set_currentMovement None).

Definition stopContinuousMovement : M unit :=
  s ← get;
  match movementInterval s with
  | Some id => clearInterval id;; modify (set_movementInterval None)
  | None => mret tt
  end;;
  s ← get;
  match currentMovement s with
  | Some _ => sendStopCommand;; modify (set_currentMovement None)
  | None => mret tt
  end.

(** The callback armed by [startContinuousMovement]. *)
Definition resend : M unit :=
  s ← get;
  match currentMovement s with
  | Some d => sendMovementCommand d
  | None => mret tt
  end.

Definition startContinuousMovement (direction : Direction) : M unit :=
  stopContinuousMovement;;
  modify (set_currentMovement (Some direction));;
  sendMovementCommand direction;;
  id ← setInterval;
  modify (set_movementInterval (Some id)).

Definition updateMovement : M unit :=
  s ← get;
  let activeDirections := omap getDirectionFromKey (keysPressed s) in
  match activeDirections with
  | [] => stopContinuousMovement
  | newMovement :: _ =>
      if decide (Some newMovement = currentMovement s) then mret tt
      else startContinuousMovement newMovement
  end.

(** [this.keysPressed[key]] is truthy exactly when [key] is an own key. *)
Definition pressed (key : string) (s : State) : bool :=
  bool_decide (key ∈ keysPressed s).

(** [this.keysPressed[key] = true] on a key that is not yet a property
    appends it to the key order. *)
Definition handleKeyDown (key : string) : M unit :=
  s ← get;
  match getDirectionFromKey key with
  | Some _ =>
      if pressed key s then mret tt
      else modify (set_keysPressed (keysPressed s ++ [key]));; updateMovement
  | None => mret tt
  end.

(** [delete this.keysPressed[key]] *)
Definition handleKeyUp (key : string) : M unit :=
  s ← get;
  match getDirectionFromKey key with
  | Some _ =>
      if pressed key s then
        modify (set_keysPressed (filter (λ k, k ≠ key) (keysPressed s)));;
        updateMovement
      else mret tt
  | None => mret tt
  end.

(** The [blur] listener. *)
Definition onblur : M unit :=
  modify (set_keysPressed []);;
  stopContinuousMovement.

(** ** Viewport *)

Definition centerViewportOnPlayer : M unit :=
  s ← get;
  match myPlayer s with
  | None => console_log log_no_myPlayer
  | Some p =>
      modify (set_viewportX (Player.x p - inject_Z (canvas_width s) / 2)%Q);;
      modify (set_viewportY (Player.y p - inject_Z (canvas_height s) / 2)%Q);;
      modify (λ s, set_viewportX
        (Qmax 0 (Qmin (viewportX s)
                      (inject_Z worldWidth - inject_Z (canvas_width s)))%Q) s);;
      modify (λ s, set_viewportY
        (Qmax 0 (Qmin (viewportY s)
                      (inject_Z worldHeight - inject_Z (canvas_height s)))%Q) s);;
      s ← get;
      console_log
        (log_viewport_centered (viewportX s) (viewportY s) (Player.x p) (Player.y p))
  end.

Module Point.
Record t := mk { x : Q; y : Q }.
End Point.

Definition worldToScreen (worldX worldY : Q) : M Point.t :=
  s ← get;
  mret (Point.mk (worldX - viewportX s)%Q (worldY - viewportY s)%Q).

(** The inverse translation the specification speaks of (the class has no
    such method): add the offset back. *)
Definition screenToWorld (screenX screenY : Q) : M Point.t :=
  s ← get;
  mret (Point.mk (screenX + viewportX s)%Q (screenY + viewportY s)%Q).

(** [worldToScreen] and the inverse translation on the numbers a browser
    computes with. *)
Module Binary64.
Record Point := mk { x : float; y : float }.

Definition worldToScreen (viewportX viewportY worldX worldY : float) : Point :=
  mk (worldX - viewportX)%float (worldY - viewportY)%float.

Definition screenToWorld (viewportX viewportY screenX screenY : float) : Point :=
  mk (screenX + viewportX)%float (screenY + viewportY)%float.

(** The double reached from zero by adding [d] [n] times: with [d] one, the
    integer [n]; with [d] one half, [n] halves. *)
Definition steps (d : float) (n : nat) : float :=
  Nat.iter n (λ v, v + d)%float 0%float.

(** On one axis, adding the offset and taking it away again, in either
    order, gives the coordinate back ([===]). *)
Definition axis_exact (offset coordinate : float) : bool :=
  PrimFloat.eqb ((coordinate + offset) - offset)%float coordinate &&
  PrimFloat.eqb ((coordinate - offset) + offset)%float coordinate.

(** [f] holds of [v], [v + d], ..., up to [n] additions of [d]. *)
Fixpoint forall_steps (d : float) (n : nat) (v : float) (f : float → bool) : bool :=
  f v && match n with
         | O => true
         | S n' => forall_steps d n' (v + d)%float f
         end.
End Binary64.

(** ** Renderer

    [draw] paints the world map at the viewport offset and logs the number of
    players.  The sprites are painted by image-load callbacks of [drawAvatar],
    which read the instance and write to the canvas only; they are left out. *)
Definition draw : M unit :=
  s ← get;
  match worldImage s with
  | None => mret tt
  | Some _ =>
      modify (set_canvas (canvas s ++
        [mkPaint (viewportX s) (viewportY s) (canvas_width s) (canvas_height s)]));;
      console_log (log_drawing (size (players s)))
  end.

(** ** Protocol reducer *)

(** A property key is a string: [obj[null]] reads the property named
    ["null"] (ECMAScript ToPropertyKey). *)
Definition propertyKey (v : option string) : string :=
  match v with
  | Some k => k
  | None => "null"
  end.

Definition handleServerMessage (message : ServerMessage) : M unit :=
  console_log (log_received message);;
  if String.eqb (action message) "join_game" then
    if success message then
      modify (set_playerId (Some (msg_playerId message)));;
      modify (set_players (msg_players message));;
      modify (set_avatars (msg_avatars message));;
      modify (λ s, set_myPlayer (players s !! propertyKey (playerId s)) s);;
      centerViewportOnPlayer;;
      draw
    else
      console_log (log_join_failed (msg_error message))
  else if String.eqb (action message) "player_joined" then
    match msg_player message with
    | None => throw TypeError
    | Some player =>
        modify (λ s, set_players (<[Player.id player := player]> (players s)) s);;
        match msg_avatar message with
        | None => throw TypeError
        | Some avatar =>
            modify (λ s, set_avatars (<[Avatar.name avatar := avatar]> (avatars s)) s);;
            draw
        end
    end
  else if String.eqb (action message) "players_moved" then
    modify (λ s, set_players (msg_players message ∪ players s) s);;
    s ← get;
    match msg_players message !! propertyKey (playerId s) with
    | Some player =>
        modify (set_myPlayer (Some player));;
        centerViewportOnPlayer;;
        console_log (log_player_moved (Player.x player) (Player.y player))
    | None => mret tt
    end;;
    draw
  else if String.eqb (action message) "player_left" then
    modify (λ s, set_players (delete (msg_playerId message) (players s)) s);;
    draw
  else mret tt.

(** ** Connection manager *)

Definition joinGame : M unit :=
  ws_send (JSON_stringify (join_game_msg "Tim")).

(** [event.data] as [JSON.parse] sees it: text that is not JSON, on which
    [JSON.parse] throws a [SyntaxError], or the text of a message. *)
Inductive Frame :=
| Unparsable (data : string)
| Parsed (message : ServerMessage).

Definition JSON_parse (data : Frame) : M ServerMessage :=
  match data with
  | Unparsable _ => throw SyntaxError
  | Parsed message => mret message
  end.

Definition onmessage (data : Frame) : M unit :=
  message ← JSON_parse data;
  handleServerMessage message.

Definition onopen : M unit :=
  console_log log_connected;;
  joinGame.

(** ** The event loop *)

Inductive Event :=
| keydown (key : string)
| keyup (key : string)
| blur
| interval (id : positive)
| ws_open
| ws_message (data : Frame)
| ws_error
| ws_close
| resize (innerWidth innerHeight : Z)
| world_loaded.

(** The listener of each event.  The browser moves [readyState] before it
    calls [onopen] and [onclose], and calls an interval callback only while
    the timer is armed. *)
Definition listener (e : Event) : M unit :=
  match e with
  | keydown key => handleKeyDown key
  | keyup key => handleKeyUp key
  | blur => onblur
  | interval id =>
      s ← get;
      if bool_decide (id ∈ timers s) then resend else mret tt
  | ws_open => modify (set_ws (Some OPEN));; onopen
  | ws_message data => onmessage data
  | ws_error => console_log log_ws_error
  | ws_close => modify (set_ws (Some CLOSED));; console_log log_disconnected
  | resize w h => modify (set_canvas_size w h);; draw
  | world_loaded => draw
  end.

(** Handlers run to completion one after the other; an exception that
    escapes a listener ends that listener only. *)
Definition step (s : State) (e : Event) : State := final (listener e s).

Definition run (evs : list Event) (s : State) : State := fold_left step evs s.

(** The frames an event hands to the transport. *)
Definition outbound (e : Event) (s : State) : list string :=
  drop (length (sent s)) (sent (step s e)).

(** The instance when the constructor returns, in a window of the given
    size: the socket is connecting, nothing is pressed, nobody has joined. *)
Definition init (innerWidth innerHeight : Z) : State :=
  {| canvas_width := innerWidth;
     canvas_height := innerHeight;
     worldImage := Some "world.jpg";
     ws := Some CONNECTING;
     playerId := None;
     players := ∅;
     avatars := ∅;
     myPlayer := None;
     viewportX := 0;
     viewportY := 0;
     keysPressed := [];
     currentMovement := None;
     movementInterval := None;
     timers := ∅;
     nextTimer := 1;
     sent := [];
     console := [];
     canvas := [] |}.

Definition reachable (s : State) : Prop :=
  ∃ w h evs, s = run evs (init w h).

(** ** Specification side *)

Definition recognized (key : string) : Prop := is_Some (getDirectionFromKey key).

(** Which keys are held after a trace, and since when: [track] advances a
    clock with every event and remembers, for each key, the instant of the
    key-down that began its current hold. *)
Definition upd (f : string → option nat) (k : string) (v : option nat)
  : string → option nat :=
  λ k', if String.eqb k' k then v else f k'.

Definition track (h : nat * (string → option nat)) (e : Event)
  : nat * (string → option nat) :=
  (S (fst h),
   match e with
   | keydown k =>
       upd (snd h) k
         (match snd h k with Some t0 => Some t0 | None => Some (fst h) end)
   | keyup k => upd (snd h) k None
   | blur => λ _, None
   | _ => snd h
   end).

Definition heldSince (evs : list Event) (key : string) : option nat :=
  snd (fold_left track evs (0, λ _, None)) key.

(** [key] is the recognized key that has been held longest after [evs]. *)
Definition earliest_held (evs : list Event) (key : string) : Prop :=
  recognized key ∧
  ∃ t, heldSince evs key = Some t ∧
       ∀ key' t', key' ≠ key → recognized key' →
                  heldSince evs key' = Some t' → t < t'.

(** The order of [keysPressed] after an event, as a function of the order
    before it. *)
Definition next_keys (e : Event) (keys : list string) : list string :=
  match e with
  | keydown k =>
      match getDirectionFromKey k with
      | Some _ => if bool_decide (k ∈ keys) then keys else keys ++ [k]
      | None => keys
      end
  | keyup k =>
      match getDirectionFromKey k with
      | Some _ => filter (λ k', k' ≠ k) keys
      | None => keys
      end
  | blur => []
  | _ => keys
  end.

(** The timers that are armed according to [movementInterval]. *)
Definition armed (mi : option positive) : gset positive :=
  match mi with
  | Some id => {[id]}
  | None => ∅
  end.

(** What holds of the controller between any two events. *)
Record controller_inv (s : State) : Prop := {
  inv_recognized : Forall recognized (keysPressed s);
  inv_direction :
    currentMovement s = head (omap getDirectionFromKey (keysPressed s));
  inv_timers : timers s = armed (movementInterval s);
  inv_interval : is_Some (movementInterval s) ↔ is_Some (currentMovement s) }.

(** A method leaves a component of the state alone, however it ends. *)
Definition preserves {A B} (π : State → B) (m : M A) : Prop :=
  ∀ s, π (final (m s)) = π s.

(** The frames of the stop message that a method may send. *)
Definition stop_frames (s : State) : list string :=
  match currentMovement s with
  | Some _ => if ws_not_open s then [] else [JSON_stringify stop_msg]
  | None => []
  end.

Definition move_frames (d : Direction) (s : State) : list string :=
  if ws_not_open s then [] else [JSON_stringify (move_msg d)].

(** The part of the state the movement controller owns. *)
Definition controller (s : State)
  : list string * option Direction * option positive * gset positive :=
  (keysPressed s, currentMovement s, movementInterval s, timers s).

(** The world state store together with the viewport. *)
Definition store (s : State) :=
  (playerId s, players s, avatars s, myPlayer s, viewportX s, viewportY s).

(** [a] has been held for longer than [b]. *)
Definition before (f : string → option nat) (a b : string) : Prop :=
  ∀ ta tb, f a = Some ta → f b = Some tb → ta < tb.

(** The key order of [keysPressed] agrees with the record of the trace. *)
Record tracks (h : nat * (string → option nat)) (keys : list string) : Prop := {
  tr_held : ∀ k, k ∈ keys ↔ recognized k ∧ is_Some (snd h k);
  tr_past : ∀ k t, snd h k = Some t → t < fst h;
  tr_order : StronglySorted (before (snd h)) keys }.

(** The events whose listeners belong to the movement controller. *)
Definition input_event (e : Event) : bool :=
  match e with
  | keydown _ | keyup _ | blur | interval _ => true
  | _ => false
  end.

(** The tags the handler switches on. *)
Definition known_actions : list string :=
  ["join_game"; "player_joined"; "players_moved"; "player_left"].

(** A frame the protocol has no handler for: text that does not parse, or a
    message with a tag outside [known_actions]. *)
Definition stray (data : Frame) : Prop :=
  match data with
  | Unparsable _ => True
  | Parsed message => action message ∉ known_actions
  end.

(** The offset [centerViewportOnPlayer] computes on one axis: the position
    minus half the surface, cut off above at world minus surface, then below
    at zero. *)
Definition clamp (position : Q) (surface world : Z) : Q :=
  Qmax 0 (Qmin (position - inject_Z surface / 2) (inject_Z world - inject_Z surface))%Q.

(** [myPlayer] is the table entry under the local identifier. *)
Definition aliased (s : State) : Prop :=
  myPlayer s = players s !! propertyKey (playerId s).

(** An accepted join. *)
Definition accepted_join (message : ServerMessage) : bool :=
  String.eqb (action message) "join_game" && success message.

(** The avatar definition a [player_joined] message stores: the handler
    reaches the catalog only after it has read [message.player.id]. *)
Definition joined_avatar (message : ServerMessage) : option Avatar.t :=
  if String.eqb (action message) "player_joined" then
    msg_player message ≫= λ _, msg_avatar message
  else None.

(** ** Sample traffic *)

Definition p1 : Player.t :=
  Player.mk 1 "p1" 100 100 "south" 0 "knight" "Tim".

(** The same player described anew: a second object. *)
Definition p1_again : Player.t :=
  Player.mk 5 "p1" 100 100 "south" 0 "knight" "Tim".

Definition p2 : Player.t :=
  Player.mk 3 "p2" 1500 700 "west" 1 "knight" "Ann".

Definition p2_moved : Player.t :=
  Player.mk 6 "p2" 1490 700 "west" 2 "knight" "Ann".

(** A player whose identifier is the string ["null"]. *)
Definition p_null : Player.t :=
  Player.mk 7 "null" 1000 900 "north" 0 "knight" "Nil".

Definition knight : Avatar.t :=
  Avatar.mk 2 "knight" {[ "south" := ["south0"; "south1"]; "west" := ["west0"] ]}.

Definition knight_again : Avatar.t :=
  Avatar.mk 4 "knight" {[ "south" := ["south0"] ]}.

Definition blank (tag : string) : ServerMessage :=
  mkMessage tag false "" ∅ ∅ None None "".

Definition join_p1 : ServerMessage :=
  mkMessage "join_game" true "p1" {[ "p1" := p1 ]} {[ "knight" := knight ]}
    None None "".

Definition joined_p2 : ServerMessage :=
  mkMessage "player_joined" false "" ∅ ∅ (Some p2) (Some knight_again) "".

Definition joined_p1_again : ServerMessage :=
  mkMessage "player_joined" false "" ∅ ∅ (Some p1_again) (Some knight) "".

Definition moved_p2 : ServerMessage :=
  mkMessage "players_moved" false "" {[ "p2" := p2_moved ]} ∅ None None "".

Definition moved_null : ServerMessage :=
  mkMessage "players_moved" false "" {[ "null" := p_null ]} ∅ None None "".

Definition left_p1 : ServerMessage :=
  mkMessage "player_left" false "p1" ∅ ∅ None None "".

(** ** Renderer: sprites

    The last statement of [draw] calls [drawAvatar] for every player of the
    table; it is modelled here on its own.  [drawAvatar] runs in two parts.
    The call itself reads the instance, decides whether the player is drawn
    at all, and hands one frame of the avatar to the image loader; the
    [onload] callback of that image paints the sprite and the name label
    once the frame is decoded. *)






(** The calls an [onload] callback makes on the 2D context. *)
Module ctx.
End ctx.


(** *** Specification side of the renderer *)

(** The player lies in the viewport widened by 50 units on every side. *)
Definition in_view (s : State) (p : Player.t) : Prop :=
  (viewportX s - 50 <= Player.x p)%Q ∧
  (Player.x p <= viewportX s + inject_Z (canvas_width s) + 50)%Q ∧
  (viewportY s - 50 <= Player.y p)%Q ∧
  (Player.y p <= viewportY s + inject_Z (canvas_height s) + 50)%Q.





(** *** Specification side of the controller and the transport *)

(** The events of the keyboard and the window focus. *)
Definition key_event (e : Event) : bool :=
  match e with
  | keydown _ | keyup _ | blur => true
  | _ => false
  end.

(** The frames an event sends when it takes the controller from the
    direction [before] to the direction [after], seen from the state [s]
    before the event: nothing when the direction stays, else a stop for the
    old direction followed by a move for the new one. *)
Definition transition_frames (s : State) (after : option Direction) : list string :=
  if decide (after = currentMovement s) then []
  else stop_frames s ++
       match after with
       | Some d => move_frames d s
       | None => []
       end.

(** The messages of the client's side of the protocol. *)
Definition client_messages : list ClientMessage :=
  [join_game_msg "Tim"; move_msg up; move_msg down; move_msg left;
   move_msg right; stop_msg].

(** *** Specification side of the reducer and the renderer *)

(** The handler reaches its [draw] call: every known tag does, except a
    rejected join and a [player_joined] message that lacks the player or the
    avatar. *)
Definition redraws (message : ServerMessage) : bool :=
  accepted_join message
  || String.eqb (action message) "player_joined"
     && bool_decide (is_Some (msg_player message))
     && bool_decide (is_Some (msg_avatar message))
  || String.eqb (action message) "players_moved"
  || String.eqb (action message) "player_left".

(** The entity a message makes the handler centre the viewport on. *)
Definition recentres (message : ServerMessage) (s : State) : option Player.t :=
  if accepted_join message then msg_players message !! msg_playerId message
  else if String.eqb (action message) "players_moved" then
    msg_players message !! propertyKey (playerId s)
  else None.

(** What [draw] paints in a state. *)
Definition frame_of (s : State) : list Paint :=
  match worldImage s with
  | Some _ => [mkPaint (viewportX s) (viewportY s) (canvas_width s) (canvas_height s)]
  | None => []
  end.

(** The source rectangle of a paint lies within the world image. *)
Definition in_world (p : Paint) : Prop :=
  (0 <= paint_x p)%Q ∧ (paint_x p + inject_Z (paint_w p) <= inject_Z worldWidth)%Q ∧
  (0 <= paint_y p)%Q ∧ (paint_y p + inject_Z (paint_h p) <= inject_Z worldHeight)%Q.

(** A [player_joined] or [player_left] message that names the local
    identifier. *)
Definition names_local (message : ServerMessage) (s : State) : bool :=
  String.eqb (action message) "player_joined"
  && match msg_player message with
     | Some p => String.eqb (Player.id p) (propertyKey (playerId s))
     | None => false
     end
  || String.eqb (action message) "player_left"
     && String.eqb (msg_playerId message) (propertyKey (playerId s)).

(** No event of the trace, run from [s], is such a message. *)
Fixpoint spares_local (evs : list Event) (s : State) : bool :=
  match evs with
  | [] => true
  | e :: evs' =>
      match e with
      | ws_message (Parsed message) => negb (names_local message s)
      | _ => true
      end && spares_local evs' (step s e)
  end.

(** ** Proof tools *)

Ltac monad_unfold :=
  cbv [mbind M_bind mret M_ret get modify throw console_log setInterval
       clearInterval ws_send].

(** * Proofs *)

(** ** The monad *)

Section Preserves.
Context {B : Type} (π : State → B).

Lemma preserves_ret {A} (a : A) : preserves π (mret a).
Proof. by intros s. Qed.

Lemma preserves_get : preserves π get.
Proof. by intros s. Qed.

Lemma preserves_throw {A} e : preserves π (throw (A:=A) e).
Proof. by intros s. Qed.

Lemma preserves_modify f : (∀ s, π (f s) = π s) → preserves π (modify f).
Proof. intros H s. apply H. Qed.

Lemma preserves_bind {A C} (m : M A) (f : A → M C) :
  preserves π m → (∀ a, preserves π (f a)) → preserves π (m ≫= f).
Proof.
  intros Hm Hf s. unfold mbind, M_bind. specialize (Hm s).
  destruct (m s) as [a s'|e s']; simpl in *; [|done].
  by rewrite Hf.
Qed.
End Preserves.

Ltac frame_step :=
  first
    [ apply preserves_bind; [|intros ?]
    | apply preserves_ret
    | apply preserves_get
    | apply preserves_throw
    | apply preserves_modify; intros []; reflexivity
    | progress (unfold console_log, clearInterval, setInterval, ws_send)
    | case_match ].

Ltac frame := repeat frame_step.

Lemma run_bind {A B} (m : M A) (f : A → M B) s a s' :
  m s = Returns a s' → (m ≫= f) s = f a s'.
Proof. intros H. unfold mbind, M_bind. by rewrite H. Qed.

(** ** Movement controller: sending *)

Lemma sendMovementCommand_spec d s :
  sendMovementCommand d s =
    Returns tt
      (if ws_not_open s then s
       else set_currentMovement (Some d)
              (set_sent (sent s ++ [JSON_stringify (move_msg d)]) s)).
Proof.
  unfold sendMovementCommand, ws_not_open. monad_unfold.
  destruct (ws s) as [[]|] eqn:E; cbv beta; rewrite ?E; done.
Qed.

Lemma sendStopCommand_spec s :
  sendStopCommand s =
    Returns tt
      (if ws_not_open s then s
       else set_currentMovement None
              (set_sent (sent s ++ [JSON_stringify stop_msg]) s)).
Proof.
  unfold sendStopCommand, ws_not_open. monad_unfold.
  destruct (ws s) as [[]|] eqn:E; cbv beta; rewrite ?E; done.
Qed.

Lemma sendMovementCommand_closed d s :
  ws_not_open s = true → sendMovementCommand d s = Returns tt s.
Proof. intros H. unfold sendMovementCommand. monad_unfold. by rewrite H. Qed.

Lemma sendStopCommand_closed s :
  ws_not_open s = true → sendStopCommand s = Returns tt s.
Proof. intros H. unfold sendStopCommand. monad_unfold. by rewrite H. Qed.

Lemma ws_open_sends s :
  sent (step s ws_open) = sent s ++ [JSON_stringify (join_game_msg "Tim")].
Proof. by destruct s. Qed.

(** C8.  While the transport is not open, sending a move or a stop intent
    returns normally and leaves the whole state as it was: nothing reaches
    the transport and nothing is kept for later, so that the only frame
    handed over when the socket opens is the join request. *)
Theorem send_dropped_unless_open (s : State) (d : Direction) :
  ws_not_open s = true →
  sendMovementCommand d s = Returns tt s ∧
  sendStopCommand s = Returns tt s ∧
  sent (step s ws_open) = sent s ++ [JSON_stringify (join_game_msg "Tim")].
Proof.
  intros H. split; [by apply sendMovementCommand_closed|].
  split; [by apply sendStopCommand_closed|]. apply ws_open_sends.
Qed.

Lemma send_dropped_unless_open_witness :
  ws_not_open (init 800 600) = true ∧
  sendMovementCommand left (init 800 600) = Returns tt (init 800 600) ∧
  sendStopCommand (init 800 600) = Returns tt (init 800 600) ∧
  sent (step (init 800 600) ws_open) =
    sent (init 800 600) ++ [JSON_stringify (join_game_msg "Tim")].
Proof.
  split; [reflexivity|].
  exact (send_dropped_unless_open (init 800 600) left eq_refl).
Defined.

(** ** Movement controller: starting and stopping *)

Lemma stopContinuousMovement_spec s :
  ∃ s', stopContinuousMovement s = Returns tt s' ∧
    keysPressed s' = keysPressed s ∧
    currentMovement s' = None ∧
    movementInterval s' = None ∧
    timers s' = timers s ∖ armed (movementInterval s) ∧
    nextTimer s' = nextTimer s ∧
    ws s' = ws s ∧
    sent s' = sent s ++ stop_frames s.
Proof.
  destruct s as [cw ch wi w pid pl av mp vx vy kp cm mi tm nt se co ca].
  unfold stopContinuousMovement, sendStopCommand, stop_frames, ws_not_open.
  monad_unfold; simpl.
  destruct mi as [id|], cm as [d|], w as [[]|]; simpl;
    eexists; (split; [reflexivity|]); simpl;
    rewrite ?app_nil_r, ?difference_empty_L; done.
Qed.

Lemma startContinuousMovement_spec d s :
  ∃ s', startContinuousMovement d s = Returns tt s' ∧
    keysPressed s' = keysPressed s ∧
    currentMovement s' = Some d ∧
    movementInterval s' = Some (nextTimer s) ∧
    timers s' = {[nextTimer s]} ∪ (timers s ∖ armed (movementInterval s)) ∧
    ws s' = ws s ∧
    sent s' = sent s ++ stop_frames s ++ move_frames d s.
Proof.
  unfold startContinuousMovement, move_frames.
  destruct (stopContinuousMovement_spec s)
    as (s1 & H1 & Pk & Pc & Pm & Pt & Pn & Pw & Ps).
  rewrite (run_bind _ _ _ _ _ H1); cbv beta.
  rewrite (run_bind (modify _) _ s1 tt _ eq_refl); cbv beta.
  rewrite (run_bind _ _ _ _ _ (sendMovementCommand_spec d _)); cbv beta.
  assert (Hopen : ws_not_open (set_currentMovement (Some d) s1) = ws_not_open s)
    by (unfold ws_not_open; simpl; by rewrite Pw).
  rewrite Hopen. monad_unfold.
  eexists; split; [reflexivity|].
  destruct (ws_not_open s); simpl;
    rewrite ?Pk, ?Pm, ?Pt, ?Pn, ?Pw, ?Ps, ?app_nil_r, <- ?app_assoc; done.
Qed.

Lemma updateMovement_spec s :
  ∃ s', updateMovement s = Returns tt s' ∧
    keysPressed s' = keysPressed s ∧
    currentMovement s' = head (omap getDirectionFromKey (keysPressed s)) ∧
    ws s' = ws s ∧
    match head (omap getDirectionFromKey (keysPressed s)) with
    | None =>
        movementInterval s' = None ∧
        timers s' = timers s ∖ armed (movementInterval s) ∧
        sent s' = sent s ++ stop_frames s
    | Some d =>
        if decide (Some d = currentMovement s) then s' = s
        else
          movementInterval s' = Some (nextTimer s) ∧
          timers s' = {[nextTimer s]} ∪ (timers s ∖ armed (movementInterval s)) ∧
          sent s' = sent s ++ stop_frames s ++ move_frames d s
    end.
Proof.
  unfold updateMovement. monad_unfold.
  destruct (omap getDirectionFromKey (keysPressed s)) as [|d l] eqn:E; simpl.
  - destruct (stopContinuousMovement_spec s) as (s' & -> & ? & ? & ? & ? & ? & ? & ?).
    by eexists.
  - destruct (decide (Some d = currentMovement s)) as [Heq|Hne].
    + by eexists.
    + destruct (startContinuousMovement_spec d s) as (s' & -> & ? & ? & ? & ? & ? & ?).
      by eexists.
Qed.

(** ** One event at a time *)

Lemma step_keydown s key :
  step s (keydown key) =
    match getDirectionFromKey key with
    | Some _ =>
        if pressed key s then s
        else final (updateMovement (set_keysPressed (keysPressed s ++ [key]) s))
    | None => s
    end.
Proof.
  unfold step, listener, handleKeyDown. monad_unfold.
  destruct (getDirectionFromKey key); [|done]. by destruct (pressed key s).
Qed.

Lemma step_keyup s key :
  step s (keyup key) =
    match getDirectionFromKey key with
    | Some _ =>
        if pressed key s then
          final (updateMovement
                   (set_keysPressed (filter (λ k, k ≠ key) (keysPressed s)) s))
        else s
    | None => s
    end.
Proof.
  unfold step, listener, handleKeyUp. monad_unfold.
  destruct (getDirectionFromKey key); [|done]. by destruct (pressed key s).
Qed.

Lemma step_blur s :
  step s blur = final (stopContinuousMovement (set_keysPressed [] s)).
Proof. unfold step, listener, onblur. by monad_unfold. Qed.

Lemma step_interval s id : controller (step s (interval id)) = controller s.
Proof.
  destruct s as [cw ch wi w pid pl av mp vx vy kp cm mi tm nt se co ca].
  unfold step, listener, resend, sendMovementCommand, ws_not_open.
  monad_unfold; simpl.
  destruct (bool_decide (id ∈ tm)); [|done].
  by destruct cm as [d|], w as [[]|].
Qed.

Lemma handleServerMessage_controller message :
  preserves controller (handleServerMessage message).
Proof.
  unfold handleServerMessage, centerViewportOnPlayer, draw. frame.
Qed.

(** Only the keyboard, the window focus and the timer reach the controller. *)
Lemma step_controller s e :
  input_event e = false → controller (step s e) = controller s.
Proof.
  destruct e as [k|k| |id| |data| | |w h|]; try discriminate; intros _;
    unfold step, listener.
  - by destruct s as [? ? ? [[]|]].
  - unfold onmessage, JSON_parse. destruct data as [d|m]; [done|].
    apply (handleServerMessage_controller m s).
  - by destruct s.
  - by destruct s.
  - revert s. change (preserves controller (modify (set_canvas_size w h);; draw)).
    unfold draw. frame.
  - revert s. change (preserves controller draw). unfold draw. frame.
Qed.

(** Only inbound frames reach the store and the viewport. *)
Lemma step_store s e :
  (∀ data, e ≠ ws_message data) → store (step s e) = store s.
Proof.
  intros He. unfold step. revert s.
  change (preserves store (listener e)).
  destruct e as [k|k| |id| |data| | |w h|]; simpl;
    try (by destruct (He data));
    unfold handleKeyDown, handleKeyUp, onblur, resend, onopen, joinGame, draw,
      updateMovement, startContinuousMovement, stopContinuousMovement,
      sendMovementCommand, sendStopCommand; frame.
Qed.

(** ** The controller invariant *)

Lemma head_directions keys :
  Forall recognized keys →
  head (omap getDirectionFromKey keys) = head keys ≫= getDirectionFromKey.
Proof.
  intros H. destruct H as [|k l [d Hd] _]; [done|].
  simpl. by rewrite Hd.
Qed.

Lemma filter_absent (k : string) (keys : list string) :
  k ∉ keys → filter (λ k', k' ≠ k) keys = keys.
Proof.
  induction keys as [|a l IH]; [done|].
  intros H. apply not_elem_of_cons in H as [Hne Hl].
  rewrite filter_cons_True by congruence. by rewrite IH.
Qed.

Lemma updateMovement_inv s :
  Forall recognized (keysPressed s) →
  timers s = armed (movementInterval s) →
  (is_Some (movementInterval s) ↔ is_Some (currentMovement s)) →
  controller_inv (final (updateMovement s)).
Proof.
  intros Hr Ht Hi.
  destruct (updateMovement_spec s) as (s' & -> & Hk & Hc & _ & Hcase). simpl.
  destruct (head (omap getDirectionFromKey (keysPressed s))) as [d|] eqn:Hd.
  - destruct (decide (Some d = currentMovement s)) as [Heq|Hne].
    + subst s'. split; try done. by rewrite Hd.
    + destruct Hcase as (Hm & Htm & _). split.
      * by rewrite Hk.
      * by rewrite Hk, Hc.
      * rewrite Htm, Hm, Ht, difference_diag_L. apply union_empty_r_L.
      * rewrite Hm, Hc. split; eauto.
  - destruct Hcase as (Hm & Htm & _). split.
    + by rewrite Hk.
    + by rewrite Hk, Hc.
    + rewrite Htm, Hm, Ht. apply difference_diag_L.
    + rewrite Hm, Hc. split; intros []; done.
Qed.

Lemma controller_inv_ext s s' :
  controller s' = controller s → controller_inv s → controller_inv s'.
Proof.
  unfold controller. intros [= Hk Hc Hm Ht] [H1 H2 H3 H4].
  split; by rewrite ?Hk, ?Hc, ?Hm, ?Ht.
Qed.

Lemma step_inv s e : controller_inv s → controller_inv (step s e).
Proof.
  intros Hinv. pose proof Hinv as [Hr Hd Ht Hi].
  destruct e as [k|k| |id| |data| | |w h|];
    try (eapply controller_inv_ext; [|exact Hinv];
         first [by apply step_controller | apply step_interval]).
  - rewrite step_keydown. destruct (getDirectionFromKey k) as [d|] eqn:G; [|done].
    destruct (pressed k s); [done|].
    apply updateMovement_inv; simpl; try done.
    apply Forall_app; split; [done|]. apply Forall_singleton. by exists d.
  - rewrite step_keyup. destruct (getDirectionFromKey k) as [d|] eqn:G; [|done].
    destruct (pressed k s); [|done].
    apply updateMovement_inv; simpl; try done.
    rewrite Forall_forall in Hr |- *. intros x Hx.
    apply list_elem_of_filter in Hx as [_ Hx]. by apply Hr.
  - rewrite step_blur.
    destruct (stopContinuousMovement_spec (set_keysPressed [] s))
      as (s' & -> & Hk & Hc & Hm & Htm & _). simpl in *.
    split.
    + rewrite Hk. constructor.
    + by rewrite Hk, Hc.
    + rewrite Htm, Hm, Ht. apply difference_diag_L.
    + rewrite Hm, Hc. split; intros []; done.
Qed.

Lemma init_inv w h : controller_inv (init w h).
Proof. split; simpl; try done. Qed.

Lemma run_inv evs s : controller_inv s → controller_inv (run evs s).
Proof.
  revert s. induction evs as [|e evs IH]; intros s H; [done|].
  simpl. apply IH. by apply step_inv.
Qed.

Lemma reachable_inv s : reachable s → controller_inv s.
Proof. intros (w & h & evs & ->). apply run_inv, init_inv. Qed.

(** ** The key order *)

Lemma controller_keysPressed s s' :
  controller s' = controller s → keysPressed s' = keysPressed s.
Proof. unfold controller. by intros [= -> _ _ _]. Qed.

Lemma step_keysPressed s e : keysPressed (step s e) = next_keys e (keysPressed s).
Proof.
  destruct e as [k|k| |id| |data| | |w h|];
    try (by apply controller_keysPressed, step_controller); simpl.
  - rewrite step_keydown. destruct (getDirectionFromKey k); [|done].
    unfold pressed. destruct (bool_decide (k ∈ keysPressed s)); [done|].
    by destruct (updateMovement_spec (set_keysPressed (keysPressed s ++ [k]) s))
      as (s' & -> & Hk & _).
  - rewrite step_keyup. destruct (getDirectionFromKey k); [|done].
    unfold pressed. case_bool_decide as Hin.
    + by destruct (updateMovement_spec
        (set_keysPressed (filter (λ k', k' ≠ k) (keysPressed s)) s))
        as (s' & -> & Hk & _).
    + by rewrite filter_absent.
  - rewrite step_blur.
    by destruct (stopContinuousMovement_spec (set_keysPressed [] s))
      as (s' & -> & Hk & _).
  - apply controller_keysPressed, step_interval.
Qed.

(** ** The record of the trace *)

Lemma upd_eq f k v : upd f k v k = v.
Proof. unfold upd. by rewrite String.eqb_refl. Qed.

Lemma upd_ne f k v k' : k' ≠ k → upd f k v k' = f k'.
Proof. unfold upd. intros H. by apply String.eqb_neq in H as ->. Qed.

Lemma StronglySorted_weaken {A} (R R' : relation A) l :
  (∀ a b, a ∈ l → b ∈ l → R a b → R' a b) →
  StronglySorted R l → StronglySorted R' l.
Proof.
  induction l as [|x l IH]; intros HR; [constructor|].
  rewrite !StronglySorted_cons, !Forall_forall. intros [Hx Hl]. split.
  - intros y Hy. apply HR; [left|by right|by apply Hx].
  - apply IH; [|done]. intros a b Ha Hb. apply HR; by right.
Qed.

Lemma StronglySorted_filter {A} (R : relation A) (P : A → Prop)
    `{!∀ x, Decision (P x)} l :
  StronglySorted R l → StronglySorted R (filter P l).
Proof.
  induction l as [|x l IH]; [done|].
  rewrite StronglySorted_cons, Forall_forall. intros [Hx Hl].
  destruct (decide (P x)).
  - rewrite filter_cons_True by done.
    rewrite StronglySorted_cons, Forall_forall. split; [|by apply IH].
    intros y Hy. apply list_elem_of_filter in Hy as [_ Hy]. by apply Hx.
  - rewrite filter_cons_False by done. by apply IH.
Qed.

Section Tracks.
Context (t : nat) (f : string → option nat) (keys : list string).
Hypothesis H : tracks (t, f) keys.

Lemma tracks_tick : tracks (S t, f) keys.
Proof.
  destruct H as [Hh Hp Ho]. split; simpl in *; [done| |done].
  intros k t' Hk. apply Hp in Hk. lia.
Qed.

Lemma tracks_elem k : k ∈ keys → recognized k.
Proof. intros Hk. by apply (tr_held _ _ H) in Hk as [? _]. Qed.

(** An update at a key that is not in the order: the order stands. *)
Lemma tracks_upd_absent k v :
  k ∉ keys →
  (recognized k → v = None) →
  (∀ t', v = Some t' → t' ≤ t) →
  tracks (S t, upd f k v) keys.
Proof.
  intros Hk Hv Ht. destruct H as [Hh Hp Ho]. split; simpl in *.
  - intros k'. destruct (decide (k' = k)) as [->|Hne].
    + rewrite upd_eq. split; [done|]. intros [Hr Hs].
      rewrite (Hv Hr) in Hs. by destruct Hs.
    + by rewrite upd_ne.
  - intros k' t'. destruct (decide (k' = k)) as [->|Hne].
    + rewrite upd_eq. intros ->. specialize (Ht _ eq_refl). lia.
    + rewrite upd_ne by done. intros Hk'. apply Hp in Hk'. lia.
  - eapply StronglySorted_weaken; [|exact Ho].
    intros a b Ha Hb Hab ta tb.
    rewrite !upd_ne by (intros ->; done). apply Hab.
Qed.

(** A key-down that repeats a key already held changes nothing. *)
Lemma tracks_upd_same k v : f k = v → tracks (S t, upd f k v) keys.
Proof.
  intros Hv.
  assert (Hext : ∀ k', upd f k v k' = f k').
  { intros k'. destruct (decide (k' = k)) as [->|Hne];
      [by rewrite upd_eq | by rewrite upd_ne]. }
  destruct H as [Hh Hp Ho]. split; simpl in *.
  - intros k'. by rewrite Hext.
  - intros k' t'. rewrite Hext. intros Hk'. apply Hp in Hk'. lia.
  - eapply StronglySorted_weaken; [|exact Ho].
    intros a b _ _ Hab ta tb. rewrite !Hext. apply Hab.
Qed.

(** A fresh key-down goes to the end of the order. *)
Lemma tracks_upd_add k :
  recognized k → k ∉ keys → tracks (S t, upd f k (Some t)) (keys ++ [k]).
Proof.
  intros Hr Hk. destruct H as [Hh Hp Ho]. split; simpl in *.
  - intros k'. rewrite elem_of_app, list_elem_of_singleton.
    destruct (decide (k' = k)) as [->|Hne].
    + rewrite upd_eq. split; [by eauto|]. by right.
    + rewrite upd_ne by done. rewrite Hh. split; [by intros [?|?]|by left].
  - intros k' t'. destruct (decide (k' = k)) as [->|Hne].
    + rewrite upd_eq. intros [= ->]. lia.
    + rewrite upd_ne by done. intros Hk'. apply Hp in Hk'. lia.
  - apply StronglySorted_app_2.
    + intros a b Ha Hb ta tb. apply list_elem_of_singleton in Hb as ->.
      rewrite upd_eq, upd_ne by (intros ->; done).
      intros Hta [= <-]. by apply Hp in Hta.
    + eapply StronglySorted_weaken; [|exact Ho].
      intros a b Ha Hb Hab ta tb.
      rewrite !upd_ne by (intros ->; done). apply Hab.
    + repeat constructor.
Qed.

(** A key-up takes the key out of the order. *)
Lemma tracks_upd_remove k :
  tracks (S t, upd f k None) (filter (λ k', k' ≠ k) keys).
Proof.
  destruct H as [Hh Hp Ho]. split; simpl in *.
  - intros k'. rewrite list_elem_of_filter.
    destruct (decide (k' = k)) as [->|Hne].
    + rewrite upd_eq. split; [by intros []|]. by intros [_ []].
    + rewrite upd_ne by done. rewrite Hh. split; [by intros [_ ?]|done].
  - intros k' t'. destruct (decide (k' = k)) as [->|Hne].
    + by rewrite upd_eq.
    + rewrite upd_ne by done. intros Hk'. apply Hp in Hk'. lia.
  - apply StronglySorted_filter.
    eapply StronglySorted_weaken; [|exact Ho].
    intros a b Ha Hb Hab ta tb.
    destruct (decide (a = k)) as [->|Ha']; [by rewrite upd_eq|].
    destruct (decide (b = k)) as [->|Hb']; [by rewrite upd_eq|].
    rewrite !upd_ne by done. apply Hab.
Qed.
End Tracks.

Lemma tracks_clear t : tracks (t, λ _, None) [].
Proof.
  split; simpl; [|done|constructor].
  intros k. split; [by intros ?%elem_of_nil|]. by intros [_ []].
Qed.

Lemma tracks_step h keys e :
  tracks h keys → tracks (track h e) (next_keys e keys).
Proof.
  destruct h as [t f]. intros H. unfold track; simpl.
  destruct e as [k|k| |id| |data| | |w h|]; simpl;
    try (by apply tracks_tick); [| |apply tracks_clear].
  - destruct (getDirectionFromKey k) as [d|] eqn:G.
    + assert (Hr : recognized k) by (by exists d).
      case_bool_decide as Hin.
      * apply (tr_held _ _ H) in Hin as [_ [t0 Ht0]]. simpl in Ht0.
        rewrite Ht0. by apply tracks_upd_same.
      * destruct (f k) as [t0|] eqn:Hf.
        { destruct Hin. apply (tr_held _ _ H). split; [done|]. by exists t0. }
        by apply tracks_upd_add.
    + assert (Hr : ¬ recognized k) by (intros [d Hd]; congruence).
      assert (Hin : k ∉ keys) by (intros Hin; by apply Hr, (tracks_elem _ _ _ H)).
      apply tracks_upd_absent; try done.
      intros t'. destruct (f k) as [t0|] eqn:Hf; intros [= <-]; [|lia].
      apply (tr_past _ _ H) in Hf. simpl in Hf. lia.
  - destruct (getDirectionFromKey k) as [d|] eqn:G.
    + by apply tracks_upd_remove.
    + assert (Hr : ¬ recognized k) by (intros [d Hd]; congruence).
      assert (Hin : k ∉ keys) by (intros Hin; by apply Hr, (tracks_elem _ _ _ H)).
      apply tracks_upd_absent; done.
Qed.

Lemma run_tracks evs h s :
  tracks h (keysPressed s) →
  tracks (fold_left track evs h) (keysPressed (run evs s)).
Proof.
  revert h s. induction evs as [|e evs IH]; intros h s H; [done|].
  simpl. apply IH. rewrite step_keysPressed. by apply tracks_step.
Qed.

Lemma init_tracks w h : tracks (0, λ _, None) (keysPressed (init w h)).
Proof. apply tracks_clear. Qed.

(** The head of the order is the key held longest. *)
Lemma tracks_head h k keys :
  tracks h (k :: keys) →
  recognized k ∧
  ∃ t, snd h k = Some t ∧
       ∀ k' t', k' ≠ k → recognized k' → snd h k' = Some t' → t < t'.
Proof.
  intros H. destruct (proj1 (tr_held _ _ H k)) as [Hr [t Ht]]; [left|].
  split; [done|]. exists t. split; [done|].
  intros k' t' Hne Hr' Ht'.
  assert (Hin : k' ∈ k :: keys) by (apply (tr_held _ _ H); eauto).
  apply elem_of_cons in Hin as [->|Hin]; [done|].
  pose proof (tr_order _ _ H) as Ho.
  apply StronglySorted_cons in Ho as [Ho _].
  rewrite Forall_forall in Ho. by apply (Ho k' Hin).
Qed.

(** ** The active direction *)

(** C1.  After every trace of events (key-down, key-up and any other), the
    active movement direction is the direction of the recognized key that has
    been held longest, and it is null exactly when no recognized key is
    held. *)
Theorem currentMovement_earliest_held (w h : Z) (evs : list Event) :
  let s := run evs (init w h) in
  (∀ d, currentMovement s = Some d ↔
        ∃ key, earliest_held evs key ∧ getDirectionFromKey key = Some d) ∧
  (currentMovement s = None ↔
     ∀ key, recognized key → heldSince evs key = None).
Proof.
  intros s.
  pose proof (run_inv evs _ (init_inv w h)) as [Hr Hd _ _].
  pose proof (run_tracks evs _ _ (init_tracks w h)) as Ht.
  fold s in Hr, Hd, Ht. rewrite head_directions in Hd by done.
  unfold earliest_held, heldSince.
  set (rec := fold_left track evs (0, λ _, None)) in *.
  destruct (keysPressed s) as [|k keys] eqn:Hk; simpl in Hd.
  - assert (Hnone : ∀ key, recognized key → snd rec key = None).
    { intros key Hkey. destruct (snd rec key) as [t|] eqn:E; [|done].
      assert (Hin : key ∈ []) by (apply (tr_held _ _ Ht); eauto).
      by apply elem_of_nil in Hin. }
    split; [|done]. intros d. rewrite Hd. split; [done|].
    intros (key & (Hkey & t & Hheld & _) & _).
    rewrite (Hnone key Hkey) in Hheld. done.
  - destruct (tracks_head _ _ _ Ht) as (Hrk & t & Hheld & Hmin).
    destruct Hrk as [d0 Hd0]. rewrite Hd0 in Hd. split.
    + intros d. rewrite Hd. split.
      * intros [= <-]. exists k. split; [|done].
        split; [by exists d0|]. by exists t.
      * intros (key & (Hkey & t' & Hheld' & Hmin') & Hdir).
        destruct (decide (key = k)) as [->|Hne]; [congruence|].
        pose proof (Hmin key t' Hne Hkey Hheld').
        assert (k ≠ key) as Hne' by congruence.
        pose proof (Hmin' k t Hne' (ex_intro _ d0 Hd0) Hheld). lia.
    + rewrite Hd. split; [done|]. intros Hall.
      rewrite (Hall k (ex_intro _ d0 Hd0)) in Hheld. done.
Qed.

(** Right at instant 0, Up at instant 1, Right again (a repeat), then Right
    released: Up has been held since instant 1, Right is not held. *)
Example heldSince_sample :
  let evs := [keydown "ArrowRight"; keydown "ArrowUp"; keydown "ArrowRight";
              keyup "ArrowRight"] in
  heldSince (take 3 evs) "ArrowRight" = Some 0 ∧
  heldSince evs "ArrowRight" = None ∧
  heldSince evs "ArrowUp" = Some 1.
Proof. by vm_compute. Qed.

(** The scenario of the specification: Right is held first and wins; when it
    is released the direction switches to Up and the timer is armed anew. *)
Example right_then_up :
  let s := run [ws_open; keydown "ArrowRight"; keydown "ArrowUp"] (init 800 600) in
  currentMovement s = Some right ∧
  currentMovement (step s (keyup "ArrowRight")) = Some up ∧
  movementInterval s = Some 1%positive ∧
  movementInterval (step s (keyup "ArrowRight")) = Some 2%positive ∧
  outbound (keyup "ArrowRight") s =
    [JSON_stringify stop_msg; JSON_stringify (move_msg up)].
Proof. vm_compute. done. Qed.

(** ** Stopping *)

(** C6, as the code has it.  When an event empties a non-empty set of held
    keys (the last key is released, or the window loses focus), the resend
    timer is cancelled and the active direction is cleared; the event hands
    exactly one stop message to the transport when the socket is open, and
    none when it is not. *)
Theorem stop_on_release (s : State) (e : Event) :
  reachable s →
  keysPressed s ≠ [] →
  keysPressed (step s e) = [] →
  outbound e s = (if ws_not_open s then [] else [JSON_stringify stop_msg]) ∧
  timers (step s e) = ∅ ∧
  movementInterval (step s e) = None ∧
  currentMovement (step s e) = None.
Proof.
  intros Hreach Hheld Hempty.
  pose proof (reachable_inv s Hreach) as [Hr Hd Ht Hi].
  assert (Hcm : is_Some (currentMovement s)).
  { rewrite Hd, head_directions by done.
    destruct (keysPressed s) as [|k keys]; [done|].
    apply Forall_cons in Hr as [Hk _]. exact Hk. }
  assert (Hstop : ∀ s1, currentMovement s1 = currentMovement s → ws s1 = ws s →
            stop_frames s1 = if ws_not_open s then [] else [JSON_stringify stop_msg]).
  { intros s1 H1 H2. unfold stop_frames, ws_not_open. rewrite H1, H2.
    by destruct Hcm as [d ->]. }
  assert (Harmed : timers s ∖ armed (movementInterval s) = ∅).
  { rewrite Ht. apply difference_diag_L. }
  unfold outbound.
  destruct e as [k|k| |id| |data| | |w h|];
    try (rewrite step_keysPressed in Hempty; simpl in Hempty; congruence).
  - rewrite step_keysPressed in Hempty. simpl in Hempty.
    destruct (getDirectionFromKey k); [|done].
    case_bool_decide; [done|]. by destruct (keysPressed s).
  - revert Hempty. rewrite step_keyup.
    destruct (getDirectionFromKey k); [|done].
    destruct (pressed k s); [|done].
    set (s1 := set_keysPressed _ s).
    destruct (updateMovement_spec s1) as (s' & -> & Hk & Hc & _ & Hcase).
    simpl. intros Hempty. rewrite Hk in Hempty. rewrite Hempty in Hc, Hcase.
    simpl in Hc, Hcase. destruct Hcase as (Hm & Htm & Hs).
    rewrite Hs, drop_app_length, Hstop by done. by rewrite Htm.
  - rewrite step_blur.
    destruct (stopContinuousMovement_spec (set_keysPressed [] s))
      as (s' & -> & Hk & Hc & Hm & Htm & _ & _ & Hs).
    simpl in *. rewrite Hs, drop_app_length, Hstop by done. by rewrite Htm.
Qed.

Lemma stop_on_release_witness :
  let s := run [ws_open; keydown "ArrowUp"] (init 800 600) in
  reachable s ∧ keysPressed s ≠ [] ∧ keysPressed (step s blur) = [] ∧
  outbound blur s = [JSON_stringify stop_msg] ∧
  timers (step s blur) = ∅ ∧
  movementInterval (step s blur) = None ∧
  currentMovement (step s blur) = None.
Proof.
  assert (Hreach : reachable (run [ws_open; keydown "ArrowUp"] (init 800 600)))
    by (by exists 800%Z, 600%Z, [ws_open; keydown "ArrowUp"]).
  assert (Hheld : keysPressed (run [ws_open; keydown "ArrowUp"] (init 800 600)) ≠ [])
    by (vm_compute; discriminate).
  assert (Hempty : keysPressed
            (step (run [ws_open; keydown "ArrowUp"] (init 800 600)) blur) = [])
    by (vm_compute; reflexivity).
  split; [exact Hreach|]. split; [exact Hheld|]. split; [exact Hempty|].
  exact (stop_on_release _ blur Hreach Hheld Hempty).
Defined.

(** C6, as the specification states it, fails while the socket is still
    connecting: the only held key is released and no stop message leaves. *)
Lemma stop_on_release_counterexample :
  let s := run [keydown "ArrowUp"] (init 800 600) in
  reachable s ∧
  keysPressed s = ["ArrowUp"] ∧
  keysPressed (step s (keyup "ArrowUp")) = [] ∧
  outbound (keyup "ArrowUp") s = [] ∧
  outbound blur s = [].
Proof.
  split; [by exists 800%Z, 600%Z, [keydown "ArrowUp"]|]. vm_compute. done.
Qed.

(** ** Viewport *)

Lemma centerViewportOnPlayer_spec s p :
  myPlayer s = Some p →
  ∃ s', centerViewportOnPlayer s = Returns tt s' ∧
    viewportX s' = clamp (Player.x p) (canvas_width s) worldWidth ∧
    viewportY s' = clamp (Player.y p) (canvas_height s) worldHeight ∧
    playerId s' = playerId s ∧ players s' = players s ∧
    avatars s' = avatars s ∧ myPlayer s' = myPlayer s ∧
    canvas_width s' = canvas_width s ∧ canvas_height s' = canvas_height s ∧
    worldImage s' = worldImage s.
Proof.
  intros H. unfold centerViewportOnPlayer. monad_unfold. rewrite H.
  eexists. split; [reflexivity|]. by destruct s.
Qed.

Lemma centerViewportOnPlayer_none s :
  myPlayer s = None →
  centerViewportOnPlayer s =
    Returns tt (set_console (console s ++ [log_no_myPlayer]) s).
Proof. intros H. unfold centerViewportOnPlayer. monad_unfold. by rewrite H. Qed.

Lemma clamp_bounds position surface world :
  (surface ≤ world)%Z →
  (0 <= clamp position surface world <= inject_Z world - inject_Z surface)%Q.
Proof.
  intros H. unfold clamp. split; [apply Q.le_max_l|].
  apply Q.max_lub; [|apply Q.le_min_r].
  rewrite Zle_Qle in H. lra.
Qed.

Lemma clamp_oversized position surface world :
  (world < surface)%Z → (clamp position surface world == 0)%Q.
Proof.
  intros H. unfold clamp. apply Q.max_l.
  eapply Qle_trans; [apply Q.le_min_r|].
  rewrite Zlt_Qlt in H. lra.
Qed.

Lemma clamp_inside position surface world :
  (0 <= position - inject_Z surface / 2)%Q →
  (position - inject_Z surface / 2 <= inject_Z world - inject_Z surface)%Q →
  (clamp position surface world == position - inject_Z surface / 2)%Q.
Proof.
  intros H0 H1. unfold clamp. rewrite Q.min_l by done. by apply Q.max_r.
Qed.

(** C3, as the code has it.  With a local player, [centerViewportOnPlayer]
    sets the offset on each axis to the position minus half the canvas,
    cut off at world minus canvas and then at zero.  On an axis where the
    canvas is no larger than the world this lies between zero and world
    minus canvas, and is the position minus half the canvas itself whenever
    that is in range; on an axis where the canvas is larger than the world
    the offset is zero. *)
Theorem viewport_centered (s : State) (p : Player.t) :
  myPlayer s = Some p →
  let s' := final (centerViewportOnPlayer s) in
  let w := canvas_width s in
  let h := canvas_height s in
  viewportX s' = clamp (Player.x p) w worldWidth ∧
  viewportY s' = clamp (Player.y p) h worldHeight ∧
  ((w ≤ worldWidth)%Z →
     (0 <= viewportX s' <= inject_Z worldWidth - inject_Z w)%Q) ∧
  ((h ≤ worldHeight)%Z →
     (0 <= viewportY s' <= inject_Z worldHeight - inject_Z h)%Q) ∧
  ((0 <= Player.x p - inject_Z w / 2 <= inject_Z worldWidth - inject_Z w)%Q →
     (viewportX s' == Player.x p - inject_Z w / 2)%Q) ∧
  ((0 <= Player.y p - inject_Z h / 2 <= inject_Z worldHeight - inject_Z h)%Q →
     (viewportY s' == Player.y p - inject_Z h / 2)%Q) ∧
  ((worldWidth < w)%Z → (viewportX s' == 0)%Q) ∧
  ((worldHeight < h)%Z → (viewportY s' == 0)%Q).
Proof.
  intros Hp.
  destruct (centerViewportOnPlayer_spec s p Hp) as (s' & Hrun & Hx & Hy & _).
  rewrite Hrun. simpl. rewrite Hx, Hy. repeat split.
  - by apply clamp_bounds.
  - by apply clamp_bounds.
  - by apply clamp_bounds.
  - by apply clamp_bounds.
  - intros [? ?]. by apply clamp_inside.
  - intros [? ?]. by apply clamp_inside.
  - apply clamp_oversized.
  - apply clamp_oversized.
Qed.

Lemma viewport_centered_witness :
  let s := run [ws_message (Parsed join_p1)] (init 800 600) in
  let s' := final (centerViewportOnPlayer s) in
  myPlayer s = Some p1 ∧
  viewportX s' = clamp 100 800 worldWidth ∧
  viewportY s' = clamp 100 600 worldHeight ∧
  ((800 ≤ worldWidth)%Z → (0 <= viewportX s' <= inject_Z worldWidth - inject_Z 800)%Q) ∧
  ((600 ≤ worldHeight)%Z → (0 <= viewportY s' <= inject_Z worldHeight - inject_Z 600)%Q) ∧
  ((0 <= 100 - inject_Z 800 / 2 <= inject_Z worldWidth - inject_Z 800)%Q →
     (viewportX s' == 100 - inject_Z 800 / 2)%Q) ∧
  ((0 <= 100 - inject_Z 600 / 2 <= inject_Z worldHeight - inject_Z 600)%Q →
     (viewportY s' == 100 - inject_Z 600 / 2)%Q) ∧
  ((worldWidth < 800)%Z → (viewportX s' == 0)%Q) ∧
  ((worldHeight < 600)%Z → (viewportY s' == 0)%Q).
Proof.
  assert (H : myPlayer (run [ws_message (Parsed join_p1)] (init 800 600)) = Some p1)
    by (vm_compute; reflexivity).
  split; [exact H|].
  exact (viewport_centered _ p1 H).
Defined.

(** C3, as the specification states it, fails in a window wider than the
    world: the offset is zero, above world minus canvas. *)
Lemma viewport_centered_counterexample :
  let s := run [ws_message (Parsed join_p1)] (init 3000 600) in
  let s' := final (centerViewportOnPlayer s) in
  myPlayer s = Some p1 ∧
  (viewportX s' == 0)%Q ∧
  ¬ (0 <= viewportX s' <= inject_Z worldWidth - inject_Z (canvas_width s'))%Q.
Proof.
  split; [by vm_compute|]. split; [by vm_compute|].
  intros [_ H]. vm_compute in H. by apply H.
Qed.

(** ** World to screen *)

Lemma forall_steps_spec d n v f :
  Binary64.forall_steps d n v f = true →
  ∀ i, i ≤ n → f (Nat.iter i (λ v, v + d)%float v) = true.
Proof.
  revert v. induction n as [|n IH]; intros v H i Hi; simpl in H;
    apply andb_prop in H as [H0 H1].
  - by assert (i = 0) as -> by lia.
  - destruct i as [|i]; [done|].
    rewrite Nat.iter_succ_r. apply IH; [done|lia].
Qed.

(** Every integer coordinate from 0 to 2048 against every offset that is a
    multiple of one half from 0 to 2048, by computation. *)
Lemma binary64_grid :
  Binary64.forall_steps 0.5 4096 0
    (λ o, Binary64.forall_steps 1 2048 0 (λ p, Binary64.axis_exact o p)) = true.
Proof. vm_compute. reflexivity. Qed.

Lemma binary64_axis_exact i j :
  i ≤ 2048 → j ≤ 4096 →
  Binary64.axis_exact (Binary64.steps 0.5 j) (Binary64.steps 1 i) = true.
Proof.
  intros Hi Hj.
  apply (forall_steps_spec 1 2048 0
           (λ p, Binary64.axis_exact (Binary64.steps 0.5 j) p)); [|done].
  apply (forall_steps_spec 0.5 4096 0
           (λ o, Binary64.forall_steps 1 2048 0 (λ p, Binary64.axis_exact o p)));
    [|done].
  exact binary64_grid.
Qed.

Example binary64_steps :
  Binary64.steps 1 2048 = 2048%float ∧ Binary64.steps 0.5 4095 = 2047.5%float.
Proof. by vm_compute. Qed.

(** C9, as the code has it.  [worldToScreen] returns the point minus the
    viewport offset and leaves the state as it is.  Over exact numbers,
    translating a point back and forth in either order gives the point
    again.  Over binary64 it does so ([===]) for every point with integer
    coordinates from 0 to 2048 and every offset whose components are
    multiples of one half from 0 to 2048. *)
Theorem worldToScreen_translation (s : State) (worldX worldY : Q) :
  worldToScreen worldX worldY s =
    Returns (Point.mk (worldX - viewportX s) (worldY - viewportY s))%Q s ∧
  (∃ back : Point.t,
     (p ← screenToWorld worldX worldY;
      worldToScreen (Point.x p) (Point.y p)) s = Returns back s ∧
     (Point.x back == worldX)%Q ∧ (Point.y back == worldY)%Q) ∧
  (∃ back : Point.t,
     (p ← worldToScreen worldX worldY;
      screenToWorld (Point.x p) (Point.y p)) s = Returns back s ∧
     (Point.x back == worldX)%Q ∧ (Point.y back == worldY)%Q) ∧
  (∀ ix iy jx jy : nat,
     ix ≤ 2048 → iy ≤ 2048 → jx ≤ 4096 → jy ≤ 4096 →
     let vx := Binary64.steps 0.5 jx in
     let vy := Binary64.steps 0.5 jy in
     let px := Binary64.steps 1 ix in
     let py := Binary64.steps 1 iy in
     let there := Binary64.screenToWorld vx vy px py in
     let back :=
       Binary64.worldToScreen vx vy (Binary64.x there) (Binary64.y there) in
     PrimFloat.eqb (Binary64.x back) px = true ∧
     PrimFloat.eqb (Binary64.y back) py = true).
Proof.
  split; [done|]. split; [|split].
  - eexists. split; [reflexivity|]. simpl. split; ring.
  - eexists. split; [reflexivity|]. simpl. split; ring.
  - intros ix iy jx jy Hix Hiy Hjx Hjy. cbv zeta.
    pose proof (binary64_axis_exact ix jx Hix Hjx) as Hx.
    pose proof (binary64_axis_exact iy jy Hiy Hjy) as Hy.
    unfold Binary64.axis_exact in Hx, Hy.
    apply andb_prop in Hx as [Hx _]. apply andb_prop in Hy as [Hy _].
    split; [exact Hx|exact Hy].
Qed.

Set Warnings "-inexact-float".

(** C9, as the specification states it, fails on the numbers a browser
    computes with: with the viewport at (100, 50), the screen point
    (0.1, 0.7) goes to a world point that [worldToScreen] maps to
    (0.09999999999999432, 0.7000000000000028). *)
Lemma worldToScreen_counterexample :
  PrimFloat.eqb
    (Binary64.x (Binary64.worldToScreen 100 50
       (Binary64.x (Binary64.screenToWorld 100 50 0.1 0.7))
       (Binary64.y (Binary64.screenToWorld 100 50 0.1 0.7))))
    0.1 = false ∧
  PrimFloat.eqb
    (Binary64.y (Binary64.worldToScreen 100 50
       (Binary64.x (Binary64.screenToWorld 100 50 0.1 0.7))
       (Binary64.y (Binary64.screenToWorld 100 50 0.1 0.7))))
    0.7 = false ∧
  Binary64.worldToScreen 100 50
    (Binary64.x (Binary64.screenToWorld 100 50 0.1 0.7))
    (Binary64.y (Binary64.screenToWorld 100 50 0.1 0.7))
  = Binary64.mk 0.09999999999999432 0.7000000000000028.
Proof. by vm_compute. Qed.

Set Warnings "+inexact-float".

(** ** Protocol reducer: frames without a handler *)

Lemma action_cases a :
  a ∉ known_actions →
  String.eqb a "join_game" = false ∧ String.eqb a "player_joined" = false ∧
  String.eqb a "players_moved" = false ∧ String.eqb a "player_left" = false.
Proof.
  unfold known_actions. rewrite !not_elem_of_cons.
  intros (H1 & H2 & H3 & H4 & _). by rewrite !String.eqb_neq.
Qed.

Lemma handleServerMessage_unknown message s :
  action message ∉ known_actions →
  handleServerMessage message s =
    Returns tt (set_console (console s ++ [log_received message]) s).
Proof.
  intros (H1 & H2 & H3 & H4)%action_cases.
  unfold handleServerMessage. monad_unfold. by rewrite H1, H2, H3, H4.
Qed.


(** C2, as the code has it.  A frame with an unknown tag is logged (as every
    received message is) and has no other effect.  A frame that does not
    parse makes the [onmessage] listener throw the [SyntaxError] of
    [JSON.parse] before anything is logged; the event loop goes on from the
    state as it was.  In both cases the store and the viewport are as
    before. *)
Theorem stray_frame (data : Frame) (s : State) :
  stray data →
  store (step s (ws_message data)) = store s ∧
  match data with
  | Unparsable _ =>
      onmessage data s = Throws SyntaxError s ∧
      step s (ws_message data) = s
  | Parsed message =>
      onmessage data s =
        Returns tt (set_console (console s ++ [log_received message]) s)
  end.
Proof.
  unfold step, listener.
  destruct data as [text|message]; simpl; intros H; [done|].
  unfold onmessage, JSON_parse.
  rewrite (run_bind _ _ s message s eq_refl).
  by rewrite handleServerMessage_unknown.
Qed.

Lemma stray_frame_witness :
  stray (Parsed (blank "ping")) ∧
  store (step (init 800 600) (ws_message (Parsed (blank "ping")))) =
    store (init 800 600) ∧
  onmessage (Parsed (blank "ping")) (init 800 600) =
    Returns tt
      (set_console (console (init 800 600) ++ [log_received (blank "ping")])
         (init 800 600)).
Proof.
  assert (H : stray (Parsed (blank "ping"))).
  { simpl. unfold known_actions. rewrite !not_elem_of_cons.
    repeat split; try discriminate. apply not_elem_of_nil. }
  split; [exact H|].
  exact (stray_frame (Parsed (blank "ping")) (init 800 600) H).
Defined.

(** C2, as the specification states it, fails on text that is not JSON: the
    listener throws, and the client logs nothing. *)
Lemma stray_frame_counterexample :
  stray (Unparsable "{") ∧
  throws (onmessage (Unparsable "{") (init 800 600)) = true ∧
  console (final (onmessage (Unparsable "{") (init 800 600))) = [].
Proof. done. Qed.

(** ** Protocol reducer: the tables *)

Lemma players_moved_spec message s :
  action message = "players_moved" →
  let s' := final (handleServerMessage message s) in
  players s' = msg_players message ∪ players s ∧
  avatars s' = avatars s ∧
  playerId s' = playerId s ∧
  match msg_players message !! propertyKey (playerId s) with
  | Some p =>
      myPlayer s' = Some p ∧
      viewportX s' = clamp (Player.x p) (canvas_width s) worldWidth ∧
      viewportY s' = clamp (Player.y p) (canvas_height s) worldHeight
  | None =>
      myPlayer s' = myPlayer s ∧
      viewportX s' = viewportX s ∧
      viewportY s' = viewportY s
  end.
Proof.
  intros Ha. unfold handleServerMessage. rewrite Ha. simpl String.eqb. cbv iota.
  destruct s as [cw ch wi w pid pl av mp vx vy kp cm mi tm nt se co ca].
  unfold centerViewportOnPlayer, draw. monad_unfold. simpl.
  destruct (msg_players message !! propertyKey pid) as [p|]; simpl;
    destruct wi; simpl; done.
Qed.

Lemma handleServerMessage_players message s :
  let s' := final (handleServerMessage message s) in
  playerId s' =
    (if accepted_join message then Some (msg_playerId message) else playerId s) ∧
  players s' =
    (if accepted_join message then msg_players message
     else if String.eqb (action message) "player_joined" then
       match msg_player message with
       | Some p => <[Player.id p := p]> (players s)
       | None => players s
       end
     else if String.eqb (action message) "players_moved" then
       msg_players message ∪ players s
     else if String.eqb (action message) "player_left" then
       delete (msg_playerId message) (players s)
     else players s) ∧
  myPlayer s' =
    (if accepted_join message then msg_players message !! msg_playerId message
     else if String.eqb (action message) "players_moved" then
       match msg_players message !! propertyKey (playerId s) with
       | Some p => Some p
       | None => myPlayer s
       end
     else myPlayer s).
Proof.
  cbv zeta.
  destruct s as [cw ch wi w pid pl av mp vx vy kp cm mi tm nt se co ca].
  unfold accepted_join, handleServerMessage.
  unfold centerViewportOnPlayer, draw. monad_unfold.
  destruct (String.eqb_spec (action message) "join_game") as [->|_]; simpl.
  { destruct (success message); simpl; [|done].
    destruct (msg_players message !! msg_playerId message); simpl;
      by destruct wi. }
  destruct (String.eqb_spec (action message) "player_joined") as [Ha|_]; rewrite ?Ha; simpl.
  { destruct (msg_player message); simpl; [|done].
    destruct (msg_avatar message); simpl; [|done]. by destruct wi. }
  destruct (String.eqb_spec (action message) "players_moved") as [Ha|_]; rewrite ?Ha; simpl.
  { destruct (msg_players message !! propertyKey pid); simpl; by destruct wi. }
  destruct (String.eqb_spec (action message) "player_left") as [Ha|_]; rewrite ?Ha; simpl;
    [|done].
  by destruct wi.
Qed.

Lemma handleServerMessage_avatars message s :
  avatars (final (handleServerMessage message s)) =
    if accepted_join message then msg_avatars message
    else match joined_avatar message with
         | Some a => <[Avatar.name a := a]> (avatars s)
         | None => avatars s
         end.
Proof.
  destruct s as [cw ch wi w pid pl av mp vx vy kp cm mi tm nt se co ca].
  unfold accepted_join, joined_avatar, handleServerMessage.
  unfold centerViewportOnPlayer, draw. monad_unfold.
  destruct (String.eqb_spec (action message) "join_game") as [->|_]; simpl.
  { destruct (success message); simpl; [|done].
    destruct (msg_players message !! msg_playerId message); simpl;
      by destruct wi. }
  destruct (String.eqb_spec (action message) "player_joined") as [Ha|_]; simpl.
  { destruct (msg_player message); simpl; [|done].
    destruct (msg_avatar message); simpl; [|done]. by destruct wi. }
  destruct (String.eqb_spec (action message) "players_moved") as [Ha|_]; simpl.
  { destruct (msg_players message !! propertyKey pid); simpl; by destruct wi. }
  destruct (String.eqb_spec (action message) "player_left") as [Ha|_]; simpl;
    [|done].
  by destruct wi.
Qed.

(** ** Merging moved players *)

(** C7.  A [players_moved] message replaces the table entries of the
    identifiers in its payload by the entities of the payload and leaves
    every other entry the object it was; the avatar catalog and the local
    identifier stay as they are. *)
Theorem players_moved_merge (message : ServerMessage) (s : State) :
  action message = "players_moved" →
  let s' := final (handleServerMessage message s) in
  (∀ id : string,
     players s' !! id =
       match msg_players message !! id with
       | Some moved => Some moved
       | None => players s !! id
       end) ∧
  avatars s' = avatars s ∧
  playerId s' = playerId s.
Proof.
  intros Ha. destruct (players_moved_spec message s Ha) as (Hpl & Hav & Hp & _).
  simpl. rewrite Hpl. repeat split; try done.
  intros id. destruct (msg_players message !! id) as [moved|] eqn:E.
  - by apply lookup_union_Some_l.
  - by rewrite lookup_union_r.
Qed.

Lemma players_moved_merge_witness :
  let s := run [ws_message (Parsed join_p1); ws_message (Parsed joined_p2)]
               (init 800 600) in
  let s' := final (handleServerMessage moved_p2 s) in
  action moved_p2 = "players_moved" ∧
  (∀ id : string,
     players s' !! id =
       match msg_players moved_p2 !! id with
       | Some moved => Some moved
       | None => players s !! id
       end) ∧
  avatars s' = avatars s ∧
  playerId s' = playerId s.
Proof.
  split; [reflexivity|].
  exact (players_moved_merge moved_p2 _ eq_refl).
Defined.

Example players_moved_sample :
  let s := run [ws_message (Parsed join_p1); ws_message (Parsed joined_p2)]
               (init 800 600) in
  let s' := step s (ws_message (Parsed moved_p2)) in
  players s' !! "p2" = Some p2_moved ∧ players s' !! "p1" = Some p1 ∧
  myPlayer s' = Some p1.
Proof. by vm_compute. Qed.

(** ** The avatar catalog *)

(** C5, as the code has it.  An accepted join replaces the whole catalog by
    the snapshot it carries and a [player_joined] message overwrites the
    entry under the name of its avatar; every other entry, and every other
    message, leaves the stored definition as it is. *)
Theorem avatar_definition_after (message : ServerMessage) (s : State) (key : string) :
  avatars (final (handleServerMessage message s)) !! key =
    if accepted_join message then msg_avatars message !! key
    else match joined_avatar message with
         | Some a =>
             if decide (Avatar.name a = key) then Some a else avatars s !! key
         | None => avatars s !! key
         end.
Proof.
  rewrite handleServerMessage_avatars.
  destruct (accepted_join message); [done|].
  destruct (joined_avatar message) as [a|]; [|done].
  apply lookup_insert.
Qed.

(** C5, as the specification states it, fails when a second player joins
    with an avatar of a name already in the catalog. *)
Lemma avatar_definition_counterexample :
  let s := run [ws_message (Parsed join_p1)] (init 800 600) in
  let s' := step s (ws_message (Parsed joined_p2)) in
  avatars s !! "knight" = Some knight ∧
  avatars s' !! "knight" = Some knight_again ∧
  knight ≠ knight_again.
Proof. vm_compute. repeat split; discriminate. Qed.

(** ** The local-player alias *)

(** Every message keeps [myPlayer] the table entry under the local
    identifier, except a [player_joined] or a [player_left] message that
    names the local identifier. *)
Lemma handleServerMessage_aliased message s :
  aliased s →
  (action message = "player_joined" →
   ∀ p, msg_player message = Some p → Player.id p ≠ propertyKey (playerId s)) →
  (action message = "player_left" →
   msg_playerId message ≠ propertyKey (playerId s)) →
  aliased (final (handleServerMessage message s)).
Proof.
  intros Hal Hjoined Hleft.
  destruct (handleServerMessage_players message s) as (Hid & Hpl & Hmy).
  unfold aliased in *. rewrite Hid, Hpl, Hmy. clear Hid Hpl Hmy.
  destruct (accepted_join message); [done|].
  destruct (String.eqb_spec (action message) "player_joined") as [Ha|_].
  { rewrite Ha. simpl. destruct (msg_player message) as [p|]; [|done].
    rewrite lookup_insert_ne; [done|]. by apply Hjoined. }
  destruct (String.eqb_spec (action message) "players_moved") as [Ha|_].
  { destruct (msg_players message !! propertyKey (playerId s)) as [p|] eqn:E.
    - symmetry. by apply lookup_union_Some_l.
    - by rewrite lookup_union_r. }
  destruct (String.eqb_spec (action message) "player_left") as [Ha|_]; [|done].
  rewrite lookup_delete_ne; [done|]. by apply Hleft.
Qed.

(** The table holds at most one entry under the local identifier. *)
Lemma local_player_unique s (id1 id2 : string) (e1 e2 : Player.t) :
  (id1, e1) ∈ map_to_list (players s) →
  (id2, e2) ∈ map_to_list (players s) →
  id1 = propertyKey (playerId s) → id2 = propertyKey (playerId s) →
  e1 = e2.
Proof.
  rewrite !elem_of_map_to_list. intros H1 H2 -> ->. congruence.
Qed.

(** C4 fails on the code.  After an accepted join, a [player_left] message
    that names the local player removes the table entry and leaves
    [myPlayer] on the removed object; a [player_joined] message that
    describes the local player anew stores the new object and leaves
    [myPlayer] on the old one. *)
Theorem alias_not_refreshed :
  let joined := run [ws_open; ws_message (Parsed join_p1)] (init 800 600) in
  aliased joined ∧
  (let s := step joined (ws_message (Parsed left_p1)) in
   playerId s = Some "p1" ∧ myPlayer s = Some p1 ∧ players s !! "p1" = None) ∧
  (let s := step joined (ws_message (Parsed joined_p1_again)) in
   playerId s = Some "p1" ∧ myPlayer s = Some p1 ∧
   players s !! "p1" = Some p1_again ∧ p1 ≠ p1_again).
Proof. vm_compute. repeat split; discriminate. Qed.

(** ** Moves before the join *)

(** Before a join, a [players_moved] message without an entry named
    ["null"] is merged and leaves [myPlayer] and the viewport alone. *)
Lemma players_moved_before_join message s :
  action message = "players_moved" →
  playerId s = None →
  msg_players message !! "null" = None →
  let s' := final (handleServerMessage message s) in
  players s' = msg_players message ∪ players s ∧
  myPlayer s' = myPlayer s ∧
  viewportX s' = viewportX s ∧ viewportY s' = viewportY s.
Proof.
  intros Ha Hp Hn.
  destruct (players_moved_spec message s Ha) as (Hpl & _ & _ & Hm).
  rewrite Hp in Hm. simpl in Hm. rewrite Hn in Hm. by destruct Hm as (? & ? & ?).
Qed.

(** C10 fails on the code.  [playerId] is still [null] and the payload has
    an entry under the identifier ["null"]: the handler reads
    [message.players[null]], finds that entry, makes it the local player and
    recentres the viewport on it. *)
Theorem players_moved_before_join_null :
  let s := init 800 600 in
  let s' := step s (ws_message (Parsed moved_null)) in
  playerId s = None ∧ myPlayer s = None ∧
  playerId s' = None ∧
  players s' !! "null" = Some p_null ∧
  myPlayer s' = Some p_null ∧
  (viewportX s == 0)%Q ∧ (viewportY s == 0)%Q ∧
  (viewportX s' == 600)%Q ∧ (viewportY s' == 600)%Q.
Proof. by vm_compute. Qed.

(** * Further properties *)

(** ** Movement controller: what a key event sends *)

Lemma reachable_run w h evs : reachable (run evs (init w h)).
Proof. by exists w, h, evs. Qed.

Lemma outbound_app s e l : sent (step s e) = sent s ++ l → outbound e s = l.
Proof. unfold outbound. intros ->. apply drop_app_length. Qed.

Lemma outbound_same s e : sent (step s e) = sent s → outbound e s = [].
Proof. intros H. apply outbound_app. by rewrite app_nil_r. Qed.

(** What [updateMovement] sends and arms, by the direction it ends in. *)
Lemma updateMovement_transition s :
  timers s = armed (movementInterval s) →
  (is_Some (movementInterval s) ↔ is_Some (currentMovement s)) →
  let s' := final (updateMovement s) in
  ws s' = ws s ∧
  sent s' = sent s ++ transition_frames s (currentMovement s') ∧
  movementInterval s' =
    (if decide (currentMovement s' = currentMovement s) then movementInterval s
     else match currentMovement s' with
          | Some _ => Some (nextTimer s)
          | None => None
          end).
Proof.
  intros Ht Hi.
  destruct (updateMovement_spec s) as (s' & -> & Hk & Hc & Hw & Hcase). simpl.
  split; [done|]. unfold transition_frames. rewrite Hc.
  destruct (head (omap getDirectionFromKey (keysPressed s))) as [d|] eqn:Hd.
  - destruct (decide (Some d = currentMovement s)) as [Heq|Hne].
    + subst s'. by rewrite app_nil_r.
    + by destruct Hcase as (Hm & _ & Hs).
  - destruct Hcase as (Hm & _ & Hs).
    destruct (currentMovement s) as [d|] eqn:Hcm.
    + rewrite decide_False by done. by rewrite app_nil_r.
    + rewrite decide_True by done. unfold stop_frames in Hs. rewrite Hcm in Hs.
      split; [done|]. rewrite Hm. symmetry. apply eq_None_not_Some. by rewrite Hi.
Qed.

Lemma step_key_event s e :
  controller_inv s → key_event e = true →
  let s' := step s e in
  ws s' = ws s ∧
  sent s' = sent s ++ transition_frames s (currentMovement s') ∧
  movementInterval s' =
    (if decide (currentMovement s' = currentMovement s) then movementInterval s
     else match currentMovement s' with
          | Some _ => Some (nextTimer s)
          | None => None
          end).
Proof.
  intros [Hr Hd Ht Hi] He.
  assert (Hsame : ws s = ws s ∧
    sent s = sent s ++ transition_frames s (currentMovement s) ∧
    movementInterval s =
      (if decide (currentMovement s = currentMovement s) then movementInterval s
       else match currentMovement s with
            | Some _ => Some (nextTimer s)
            | None => None
            end)).
  { unfold transition_frames. rewrite !decide_True by done. by rewrite app_nil_r. }
  destruct e as [k|k| |id| |data| | |w h|]; try discriminate; cbv zeta.
  - rewrite step_keydown. destruct (getDirectionFromKey k); [|done].
    destruct (pressed k s); [done|].
    by apply (updateMovement_transition (set_keysPressed (keysPressed s ++ [k]) s)).
  - rewrite step_keyup. destruct (getDirectionFromKey k); [|done].
    destruct (pressed k s); [|done].
    by apply (updateMovement_transition
                (set_keysPressed (filter (λ k', k' ≠ k) (keysPressed s)) s)).
  - rewrite step_blur.
    destruct (stopContinuousMovement_spec (set_keysPressed [] s))
      as (s' & -> & Hk & Hc & Hm & Htm & _ & Hw & Hs). simpl in *.
    split; [done|]. unfold transition_frames. rewrite Hc, Hs, Hm.
    unfold stop_frames, ws_not_open. simpl.
    destruct (currentMovement s) as [d|] eqn:Hcm.
    + rewrite decide_False by done. by rewrite app_nil_r.
    + rewrite decide_True by done. split; [done|].
      symmetry. apply eq_None_not_Some. by rewrite Hi.
Qed.

(** X1.  A second key-down of a key that is already held, as the keyboard
    sends while the key repeats, changes nothing: whatever the state, the
    key-down listener run twice for the same key leaves the state the first
    run left. *)
Theorem keydown_repeat (s : State) (key : string) :
  step (step s (keydown key)) (keydown key) = step s (keydown key).
Proof.
  rewrite (step_keydown (step s (keydown key))).
  destruct (getDirectionFromKey key) as [d|] eqn:Hd; [|done].
  unfold pressed. rewrite step_keysPressed. simpl. rewrite Hd.
  destruct (decide (key ∈ keysPressed s)) as [Hin|Hin].
  - by rewrite (bool_decide_true _ Hin), (bool_decide_true _ Hin).
  - rewrite (bool_decide_false _ Hin), bool_decide_true; [done|].
    apply elem_of_app. right. by left.
Qed.

(** X2.  A key or focus event that leaves the active direction as it was
    sends nothing and leaves the resend timer running: pressing a second
    arrow key, or releasing a key that is not the earliest held one, neither
    repeats the move message nor restarts the timer. *)
Theorem steady_direction_silent (s : State) (e : Event) :
  reachable s → key_event e = true →
  currentMovement (step s e) = currentMovement s →
  outbound e s = [] ∧
  movementInterval (step s e) = movementInterval s ∧
  timers (step s e) = timers s.
Proof.
  intros Hs He Hc. pose proof (reachable_inv s Hs) as Hinv.
  destruct (step_key_event s e Hinv He) as (_ & Hsent & Hm).
  unfold transition_frames in Hsent.
  rewrite decide_True in Hsent by done. rewrite decide_True in Hm by done.
  split; [by apply outbound_app|]. split; [done|].
  rewrite (inv_timers _ (step_inv s e Hinv)), Hm. symmetry. apply Hinv.
Qed.

Lemma steady_direction_silent_witness :
  let s := run [ws_open; keydown "ArrowRight"] (init 800 600) in
  let e := keydown "ArrowUp" in
  reachable s ∧ key_event e = true ∧
  currentMovement (step s e) = currentMovement s ∧
  outbound e s = [] ∧
  movementInterval (step s e) = movementInterval s ∧
  timers (step s e) = timers s.
Proof.
  cbv zeta.
  assert (Hc : currentMovement
                 (step (run [ws_open; keydown "ArrowRight"] (init 800 600))
                       (keydown "ArrowUp")) =
               currentMovement (run [ws_open; keydown "ArrowRight"] (init 800 600)))
    by (vm_compute; reflexivity).
  split; [apply reachable_run|]. split; [reflexivity|]. split; [exact Hc|].
  exact (steady_direction_silent _ (keydown "ArrowUp") (reachable_run _ _ _) eq_refl Hc).
Defined.

(** X3.  An event after which a direction is active that was not active
    before it sends, if the socket is open, a stop for the direction that
    was active (if there was one) followed by one move for the new
    direction, and nothing if the socket is not open; the resend timer that
    is armed afterwards is a new one, and it is the only one. *)
Theorem direction_change_frames (s : State) (e : Event) (d : Direction) :
  reachable s →
  currentMovement (step s e) = Some d → currentMovement s ≠ Some d →
  outbound e s = stop_frames s ++ move_frames d s ∧
  movementInterval (step s e) = Some (nextTimer s) ∧
  timers (step s e) = {[nextTimer s]}.
Proof.
  intros Hs Hc Hne. pose proof (reachable_inv s Hs) as Hinv.
  destruct (key_event e) eqn:He.
  - destruct (step_key_event s e Hinv He) as (_ & Hsent & Hm).
    unfold transition_frames in Hsent. rewrite Hc in Hsent, Hm.
    rewrite decide_False in Hsent by done. rewrite decide_False in Hm by done.
    split; [by apply outbound_app|]. split; [done|].
    by rewrite (inv_timers _ (step_inv s e Hinv)), Hm.
  - exfalso. apply Hne. rewrite <- Hc.
    assert (controller (step s e) = controller s) as [= _ Hcm _ _]; [|done].
    destruct e; try discriminate; first [by apply step_controller | apply step_interval].
Qed.

Lemma direction_change_frames_witness :
  let s := run [ws_open; keydown "ArrowRight"; keydown "ArrowUp"] (init 800 600) in
  let e := keyup "ArrowRight" in
  reachable s ∧
  currentMovement (step s e) = Some up ∧ currentMovement s ≠ Some up ∧
  outbound e s = stop_frames s ++ move_frames up s ∧
  movementInterval (step s e) = Some (nextTimer s) ∧
  timers (step s e) = {[nextTimer s]}.
Proof.
  cbv zeta.
  assert (Hc : currentMovement
                 (step (run [ws_open; keydown "ArrowRight"; keydown "ArrowUp"]
                            (init 800 600))
                       (keyup "ArrowRight")) = Some up)
    by (vm_compute; reflexivity).
  assert (Hne : currentMovement
                  (run [ws_open; keydown "ArrowRight"; keydown "ArrowUp"]
                       (init 800 600)) ≠ Some up)
    by (vm_compute; discriminate).
  split; [apply reachable_run|]. split; [exact Hc|]. split; [exact Hne|].
  exact (direction_change_frames _ _ up (reachable_run _ _ _) Hc Hne).
Defined.

(** ** Movement controller: the resend timer *)

(** X4.  Between any two events at most one resend timer is armed: the
    armed timers are exactly the one [movementInterval] names, and a timer
    is armed exactly while a direction is active. *)
Theorem one_timer_armed (s : State) :
  reachable s →
  timers s = armed (movementInterval s) ∧
  (movementInterval s = None ↔ currentMovement s = None) ∧
  size (timers s) ≤ 1.
Proof.
  intros [Hr Hd Ht Hi]%reachable_inv. split; [done|]. split.
  - rewrite !eq_None_not_Some. by rewrite Hi.
  - rewrite Ht. unfold armed. destruct (movementInterval s).
    + by rewrite size_singleton.
    + rewrite size_empty. lia.
Qed.

Lemma one_timer_armed_witness :
  let s := run [keydown "ArrowUp"; keydown "ArrowLeft"; keyup "ArrowUp"]
               (init 800 600) in
  reachable s ∧
  timers s = armed (movementInterval s) ∧
  (movementInterval s = None ↔ currentMovement s = None) ∧
  size (timers s) ≤ 1.
Proof.
  cbv zeta. split; [apply reachable_run|].
  exact (one_timer_armed _ (reachable_run _ _ _)).
Defined.

(** X5.  A tick of the armed resend timer sends one move message for the
    active direction if the socket is open and nothing if it is not, and
    leaves the keys, the direction and the timer as they are. *)
Theorem tick_resends (s : State) (id : positive) :
  reachable s → movementInterval s = Some id →
  ∃ d, currentMovement s = Some d ∧
       outbound (interval id) s = move_frames d s ∧
       controller (step s (interval id)) = controller s.
Proof.
  intros [Hr Hd Ht Hi]%reachable_inv Hm.
  destruct (proj1 Hi) as [d Hc]; [by rewrite Hm|].
  exists d. split; [done|]. split; [|apply step_interval].
  apply outbound_app. unfold step, listener, resend. monad_unfold.
  rewrite Ht, Hm. simpl. rewrite bool_decide_true by by apply elem_of_singleton.
  rewrite Hc, sendMovementCommand_spec. unfold move_frames.
  destruct (ws_not_open s); simpl; [by rewrite app_nil_r|done].
Qed.

Lemma tick_resends_witness :
  let s := run [ws_open; keydown "ArrowLeft"] (init 800 600) in
  reachable s ∧ movementInterval s = Some 1%positive ∧
  ∃ d, currentMovement s = Some d ∧
       outbound (interval 1) s = move_frames d s ∧
       controller (step s (interval 1)) = controller s.
Proof.
  cbv zeta.
  assert (Hm : movementInterval (run [ws_open; keydown "ArrowLeft"] (init 800 600)) =
               Some 1%positive) by (vm_compute; reflexivity).
  split; [apply reachable_run|]. split; [exact Hm|].
  exact (tick_resends _ 1%positive (reachable_run _ _ _) Hm).
Defined.

(** X6.  A tick of any timer other than the one [movementInterval] names,
    such as a timer that has been cleared, leaves the whole state as it is
    and sends nothing. *)
Theorem stale_tick_ignored (s : State) (id : positive) :
  reachable s → movementInterval s ≠ Some id → step s (interval id) = s.
Proof.
  intros [Hr Hd Ht Hi]%reachable_inv Hm.
  unfold step, listener. monad_unfold. rewrite Ht.
  rewrite bool_decide_false; [done|].
  destruct (movementInterval s) as [id'|]; simpl.
  - rewrite elem_of_singleton. congruence.
  - apply not_elem_of_empty.
Qed.

Lemma stale_tick_ignored_witness :
  let s := run [ws_open; keydown "ArrowLeft"; keyup "ArrowLeft"; keydown "ArrowUp"]
               (init 800 600) in
  reachable s ∧ movementInterval s ≠ Some 1%positive ∧
  step s (interval 1) = s.
Proof.
  cbv zeta.
  assert (Hm : movementInterval
                 (run [ws_open; keydown "ArrowLeft"; keyup "ArrowLeft";
                       keydown "ArrowUp"] (init 800 600)) ≠ Some 1%positive)
    by (vm_compute; discriminate).
  split; [apply reachable_run|]. split; [exact Hm|].
  exact (stale_tick_ignored _ 1%positive (reachable_run _ _ _) Hm).
Defined.

(** ** The key table *)

Lemma next_keys_NoDup e keys : NoDup keys → NoDup (next_keys e keys).
Proof.
  intros H. destruct e as [k|k| |id| |data| | |w h|]; simpl; try done.
  - destruct (getDirectionFromKey k); [|done].
    case_bool_decide as Hin; [done|].
    apply NoDup_app. split; [done|]. split; [|apply NoDup_singleton].
    intros x Hx ->%list_elem_of_singleton. by apply Hin.
  - destruct (getDirectionFromKey k); [|done]. by apply NoDup_filter.
  - constructor.
Qed.

Lemma run_NoDup evs s : NoDup (keysPressed s) → NoDup (keysPressed (run evs s)).
Proof.
  revert s. induction evs as [|e evs IH]; intros s H; [done|].
  simpl. apply IH. rewrite step_keysPressed. by apply next_keys_NoDup.
Qed.

Lemma recognized_arrow key :
  recognized key → key ∈ ["ArrowUp"; "ArrowDown"; "ArrowLeft"; "ArrowRight"].
Proof.
  unfold recognized, getDirectionFromKey. rewrite !elem_of_cons.
  destruct (String.eqb_spec key "ArrowUp"); [by auto|].
  destruct (String.eqb_spec key "ArrowDown"); [by auto|].
  destruct (String.eqb_spec key "ArrowLeft"); [by auto|].
  destruct (String.eqb_spec key "ArrowRight"); [by auto 6|].
  by intros [].
Qed.

(** X7.  The key table never holds a key twice and never holds a key other
    than the four arrow keys, so that it has at most four entries. *)
Theorem keysPressed_arrows (s : State) :
  reachable s →
  NoDup (keysPressed s) ∧ Forall recognized (keysPressed s) ∧
  length (keysPressed s) ≤ 4.
Proof.
  intros Hs. pose proof (reachable_inv s Hs) as [Hr _ _ _].
  assert (Hnd : NoDup (keysPressed s)).
  { destruct Hs as (w & h & evs & ->). apply run_NoDup. constructor. }
  split; [done|]. split; [done|].
  change 4 with (length ["ArrowUp"; "ArrowDown"; "ArrowLeft"; "ArrowRight"]).
  apply submseteq_length, NoDup_submseteq; [done|].
  intros k Hk. apply recognized_arrow. rewrite Forall_forall in Hr. by apply Hr.
Qed.

Lemma keysPressed_arrows_witness :
  let s := run [keydown "ArrowUp"; keydown "w"; keydown "ArrowUp"; keydown "ArrowDown"]
               (init 800 600) in
  reachable s ∧
  NoDup (keysPressed s) ∧ Forall recognized (keysPressed s) ∧
  length (keysPressed s) ≤ 4.
Proof.
  cbv zeta. split; [apply reachable_run|].
  exact (keysPressed_arrows _ (reachable_run _ _ _)).
Defined.

(** ** The transport *)

Lemma ws_open_iff s : ws_not_open s = false ↔ ws s = Some OPEN.
Proof. unfold ws_not_open. by destruct (ws s) as [[]|]. Qed.

Lemma stop_frames_open s f :
  f ∈ stop_frames s → ws s = Some OPEN ∧ f ∈ JSON_stringify <$> client_messages.
Proof.
  unfold stop_frames. destruct (currentMovement s); [|by intros []%elem_of_nil].
  destruct (ws_not_open s) eqn:E; [by intros []%elem_of_nil|].
  intros ->%list_elem_of_singleton. split; [by apply ws_open_iff|].
  apply (list_elem_of_fmap_2 JSON_stringify). unfold client_messages.
  rewrite !elem_of_cons. auto 10.
Qed.

Lemma move_frames_open d s f :
  f ∈ move_frames d s → ws s = Some OPEN ∧ f ∈ JSON_stringify <$> client_messages.
Proof.
  unfold move_frames.
  destruct (ws_not_open s) eqn:E; [by intros []%elem_of_nil|].
  intros ->%list_elem_of_singleton. split; [by apply ws_open_iff|].
  apply (list_elem_of_fmap_2 JSON_stringify). unfold client_messages.
  rewrite !elem_of_cons. destruct d; auto 10.
Qed.

Lemma updateMovement_sends s :
  let s' := final (updateMovement s) in
  ws s' = ws s ∧
  ∃ l, sent s' = sent s ++ l ∧
       ∀ f, f ∈ l → ws s = Some OPEN ∧ f ∈ JSON_stringify <$> client_messages.
Proof.
  destruct (updateMovement_spec s) as (s' & -> & _ & _ & Hw & Hcase). simpl.
  split; [done|].
  destruct (head (omap getDirectionFromKey (keysPressed s))) as [d|].
  - destruct (decide (Some d = currentMovement s)) as [Heq|Hne].
    + subst s'. exists []. split; [by rewrite app_nil_r|]. by intros f []%elem_of_nil.
    + destruct Hcase as (_ & _ & Hs). eexists; split; [exact Hs|].
      intros f [H|H]%elem_of_app; [by apply stop_frames_open|by eapply move_frames_open].
  - destruct Hcase as (_ & _ & Hs). eexists; split; [exact Hs|].
    apply stop_frames_open.
Qed.

Lemma handleServerMessage_transport message :
  preserves (λ s, (ws s, sent s)) (handleServerMessage message).
Proof. unfold handleServerMessage, centerViewportOnPlayer, draw. frame. Qed.

Lemma step_message_transport data s :
  ws (step s (ws_message data)) = ws s ∧
  sent (step s (ws_message data)) = sent s.
Proof.
  unfold step, listener, onmessage, JSON_parse.
  destruct data as [text|message]; [done|].
  by pose proof (handleServerMessage_transport message s) as [= Hw Hs].
Qed.

Lemma step_sends s e :
  ∃ l, sent (step s e) = sent s ++ l ∧
       ∀ f, f ∈ l →
            ws (step s e) = Some OPEN ∧ f ∈ JSON_stringify <$> client_messages.
Proof.
  assert (Hsilent : sent (step s e) = sent s →
    ∃ l, sent (step s e) = sent s ++ l ∧
         ∀ f, f ∈ l →
              ws (step s e) = Some OPEN ∧ f ∈ JSON_stringify <$> client_messages).
  { intros H. exists []. split; [by rewrite app_nil_r|]. by intros f []%elem_of_nil. }
  assert (Hupd : ∀ s1, sent s1 = sent s → ws s1 = ws s →
    step s e = final (updateMovement s1) →
    ∃ l, sent (step s e) = sent s ++ l ∧
         ∀ f, f ∈ l →
              ws (step s e) = Some OPEN ∧ f ∈ JSON_stringify <$> client_messages).
  { intros s1 H1 H2 Hstep.
    destruct (updateMovement_sends s1) as (Hw & l & Hl & Hf).
    rewrite <- Hstep in Hw, Hl. rewrite H1 in Hl.
    exists l. split; [done|]. intros f Hin.
    destruct (Hf f Hin) as [Ho Hj]. split; [congruence|done]. }
  destruct e as [k|k| |id| |data| | |w h|].
  - pose proof (step_keydown s k) as Hstep.
    destruct (getDirectionFromKey k); [|by apply Hsilent; rewrite Hstep].
    destruct (pressed k s); [by apply Hsilent; rewrite Hstep|].
    eapply Hupd; [| |exact Hstep]; reflexivity.
  - pose proof (step_keyup s k) as Hstep.
    destruct (getDirectionFromKey k); [|by apply Hsilent; rewrite Hstep].
    destruct (pressed k s); [|by apply Hsilent; rewrite Hstep].
    eapply Hupd; [| |exact Hstep]; reflexivity.
  - pose proof (step_blur s) as Hstep.
    destruct (stopContinuousMovement_spec (set_keysPressed [] s))
      as (s' & Hrun & _ & _ & _ & _ & _ & Hw & Hs).
    rewrite Hrun in Hstep. simpl in Hstep, Hw, Hs.
    rewrite <- Hstep in Hw, Hs. eexists. split; [exact Hs|].
    intros f [Ho Hj]%stop_frames_open. split; [|done].
    rewrite Hw. exact Ho.
  - clear Hsilent Hupd. unfold step, listener, resend. monad_unfold.
    assert (Hsame : ∃ l, sent s = sent s ++ l ∧
      ∀ f, f ∈ l → ws s = Some OPEN ∧ f ∈ JSON_stringify <$> client_messages).
    { exists []. split; [by rewrite app_nil_r|]. by intros f []%elem_of_nil. }
    destruct (bool_decide (id ∈ timers s)); [|done].
    destruct (currentMovement s) as [d|]; [|done].
    rewrite sendMovementCommand_spec.
    destruct (ws_not_open s) eqn:E; simpl; [done|].
    eexists. split; [reflexivity|].
    intros f Hin. split; [by apply ws_open_iff|].
    apply (move_frames_open d s). unfold move_frames. by rewrite E.
  - eexists. split; [apply ws_open_sends|].
    intros f ->%list_elem_of_singleton. split; [by destruct s|].
    apply (list_elem_of_fmap_2 JSON_stringify). by left.
  - apply Hsilent. apply step_message_transport.
  - apply Hsilent. by destruct s.
  - apply Hsilent. by destruct s.
  - apply Hsilent.
    assert (Hp : preserves sent (listener (resize w h)))
      by (simpl; unfold draw; frame).
    apply Hp.
  - apply Hsilent.
    assert (Hp : preserves sent (listener world_loaded))
      by (simpl; unfold draw; frame).
    apply Hp.
Qed.

(** X8.  Whatever the state and the event, a frame is handed to the socket
    only when the socket is open, and it is the text of one of the six
    messages of the client: the join request, a move in one of the four
    directions, or a stop. *)
Theorem outbound_only_when_open (s : State) (e : Event) (f : string) :
  f ∈ outbound e s →
  ws (step s e) = Some OPEN ∧ f ∈ JSON_stringify <$> client_messages.
Proof.
  destruct (step_sends s e) as (l & Hl & Hf).
  rewrite (outbound_app _ _ _ Hl). apply Hf.
Qed.

Lemma outbound_only_when_open_witness :
  let s := run [ws_open] (init 800 600) in
  let e := keydown "ArrowUp" in
  let f := JSON_stringify (move_msg up) in
  f ∈ outbound e s ∧
  ws (step s e) = Some OPEN ∧ f ∈ JSON_stringify <$> client_messages.
Proof.
  cbv zeta.
  assert (H : JSON_stringify (move_msg up) ∈
              outbound (keydown "ArrowUp") (run [ws_open] (init 800 600))).
  { assert (Ho : outbound (keydown "ArrowUp") (run [ws_open] (init 800 600)) =
                 [JSON_stringify (move_msg up)]) by (vm_compute; reflexivity).
    rewrite Ho. by left. }
  split; [exact H|].
  exact (outbound_only_when_open _ _ _ H).
Defined.

(** X9.  An inbound frame, whatever it carries, never reaches the movement
    controller or the transport: the keys, the active direction, the timer
    and the socket stay as they are, and nothing is sent in reply. *)
Theorem inbound_leaves_controller (data : Frame) (s : State) :
  controller (step s (ws_message data)) = controller s ∧
  ws (step s (ws_message data)) = ws s ∧
  outbound (ws_message data) s = [].
Proof.
  split; [by apply step_controller|].
  destruct (step_message_transport data s) as [Hw Hs].
  split; [done|]. by apply outbound_same.
Qed.

(** Only the socket's own events move its ready state. *)
Lemma step_ws s e :
  ws (step s e) =
    match e with
    | ws_open => Some OPEN
    | ws_close => Some CLOSED
    | _ => ws s
    end.
Proof.
  destruct e as [k|k| |id| |data| | |w h|];
    try (by destruct s);
    try apply step_message_transport;
    unfold step;
    match goal with |- ws (final (listener ?e _)) = _ =>
      assert (Hp : preserves ws (listener e)); [|apply Hp] end;
    simpl;
    unfold handleKeyDown, handleKeyUp, onblur, resend, draw,
      updateMovement, startContinuousMovement, stopContinuousMovement,
      sendMovementCommand, sendStopCommand; frame.
Qed.

Lemma step_join_first s e :
  match sent s with
  | [] => ws s ≠ Some OPEN
  | f :: _ => f = JSON_stringify (join_game_msg "Tim")
  end →
  match sent (step s e) with
  | [] => ws (step s e) ≠ Some OPEN
  | f :: _ => f = JSON_stringify (join_game_msg "Tim")
  end.
Proof.
  intros H. destruct (step_sends s e) as (l & Hl & Hf). rewrite Hl.
  destruct (sent s) as [|f0 fs] eqn:Hs; [|done]. simpl.
  destruct l as [|f l'].
  - rewrite step_ws. destruct e; try done.
    pose proof (ws_open_sends s) as Ho. rewrite Hl, Hs in Ho. discriminate.
  - destruct (Hf f) as [Hopen _]; [by left|].
    rewrite step_ws in Hopen.
    destruct e; try done.
    pose proof (ws_open_sends s) as Ho. rewrite Hl, Hs in Ho. by injection Ho.
Qed.

(** X10.  The join request is the first frame the server ever receives:
    as long as nothing has been sent the socket is not open, and once
    anything has been sent the first frame is the join request, so that no
    move or stop precedes it. *)
Theorem join_request_first (s : State) :
  reachable s →
  match sent s with
  | [] => ws s ≠ Some OPEN
  | f :: _ => f = JSON_stringify (join_game_msg "Tim")
  end.
Proof.
  intros (w & h & evs & ->).
  assert (H0 : match sent (init w h) with
               | [] => ws (init w h) ≠ Some OPEN
               | f :: _ => f = JSON_stringify (join_game_msg "Tim")
               end) by done.
  revert H0. generalize (init w h). induction evs as [|e evs IH]; intros s H; [done|].
  simpl. apply IH. by apply step_join_first.
Qed.

Lemma join_request_first_witness :
  let s := run [keydown "ArrowUp"; ws_open; keydown "ArrowLeft"; keyup "ArrowUp"]
               (init 800 600) in
  reachable s ∧
  match sent s with
  | [] => ws s ≠ Some OPEN
  | f :: _ => f = JSON_stringify (join_game_msg "Tim")
  end.
Proof.
  cbv zeta. split; [apply reachable_run|].
  exact (join_request_first _
           (reachable_run 800 600
              [keydown "ArrowUp"; ws_open; keydown "ArrowLeft"; keyup "ArrowUp"])).
Defined.

(** ** Protocol reducer: the viewport and the redraw *)

Lemma handleServerMessage_render message s :
  let s' := final (handleServerMessage message s) in
  viewportX s' =
    match recentres message s with
    | Some p => clamp (Player.x p) (canvas_width s) worldWidth
    | None => viewportX s
    end ∧
  viewportY s' =
    match recentres message s with
    | Some p => clamp (Player.y p) (canvas_height s) worldHeight
    | None => viewportY s
    end ∧
  canvas_width s' = canvas_width s ∧ canvas_height s' = canvas_height s ∧
  worldImage s' = worldImage s ∧
  canvas s' = canvas s ++ (if redraws message then frame_of s' else []).
Proof.
  cbv zeta.
  destruct s as [cw ch wi w pid pl av mp vx vy kp cm mi tm nt se co ca].
  unfold redraws, recentres, frame_of, accepted_join, handleServerMessage.
  unfold centerViewportOnPlayer, draw, clamp. monad_unfold.
  destruct (String.eqb_spec (action message) "join_game") as [->|_]; simpl.
  { destruct (success message); simpl; [|by rewrite app_nil_r].
    destruct (msg_players message !! msg_playerId message); simpl;
      destruct wi; simpl; by rewrite ?app_nil_r. }
  destruct (String.eqb_spec (action message) "player_joined") as [Ha|_]; rewrite ?Ha; simpl.
  { destruct (msg_player message); simpl; [|by rewrite app_nil_r].
    destruct (msg_avatar message); simpl; [|by rewrite app_nil_r].
    destruct wi; simpl; by rewrite ?app_nil_r. }
  destruct (String.eqb_spec (action message) "players_moved") as [Ha|_]; rewrite ?Ha; simpl.
  { destruct (msg_players message !! propertyKey pid); simpl;
      destruct wi; simpl; by rewrite ?app_nil_r. }
  destruct (String.eqb_spec (action message) "player_left") as [Ha|_]; rewrite ?Ha; simpl;
    [|by rewrite app_nil_r].
  destruct wi; simpl; by rewrite ?app_nil_r.
Qed.

Lemma handleServerMessage_count message s :
  redraws message = true → is_Some (worldImage s) →
  let s' := final (handleServerMessage message s) in
  last (console s') = Some (log_drawing (size (players s'))).
Proof.
  cbv zeta.
  destruct s as [cw ch wi w pid pl av mp vx vy kp cm mi tm nt se co ca].
  intros Hr [img Hi]. simpl in Hi. subst wi. revert Hr.
  unfold redraws, accepted_join, handleServerMessage.
  unfold centerViewportOnPlayer, draw. monad_unfold.
  destruct (String.eqb_spec (action message) "join_game") as [->|_]; simpl.
  { destruct (success message); simpl; [|done].
    destruct (msg_players message !! msg_playerId message); simpl;
      intros _; by rewrite last_snoc. }
  destruct (String.eqb_spec (action message) "player_joined") as [Ha|_]; rewrite ?Ha; simpl.
  { destruct (msg_player message); simpl; [|done].
    destruct (msg_avatar message); simpl; [|done].
    intros _; by rewrite last_snoc. }
  destruct (String.eqb_spec (action message) "players_moved") as [Ha|_]; rewrite ?Ha; simpl.
  { destruct (msg_players message !! propertyKey pid); simpl;
      intros _; by rewrite last_snoc. }
  destruct (String.eqb_spec (action message) "player_left") as [Ha|_]; rewrite ?Ha; simpl;
    [|done].
  intros _; by rewrite last_snoc.
Qed.

Lemma recentres_redraws message s p :
  recentres message s = Some p → redraws message = true.
Proof.
  unfold recentres, redraws. destruct (accepted_join message); [done|].
  destruct (String.eqb (action message) "players_moved"); [|done].
  intros _. by rewrite orb_true_r.
Qed.

(** X11.  A message whose handler reaches [draw] is painted once, from the
    state after all its updates: with the world image present, the one frame
    added to the canvas shows the viewport as the handler left it, and the
    count logged last is the size of the table as the handler left it.  A
    message whose handler does not reach [draw] paints nothing. *)
Theorem redraw_after_update (message : ServerMessage) (s : State) :
  let s' := final (handleServerMessage message s) in
  canvas s' =
    canvas s ++
    (if redraws message then
       match worldImage s with
       | Some _ =>
           [mkPaint (viewportX s') (viewportY s') (canvas_width s) (canvas_height s)]
       | None => []
       end
     else []) ∧
  (if redraws message then
     match worldImage s with
     | Some _ => last (console s') = Some (log_drawing (size (players s')))
     | None => True
     end
   else True).
Proof.
  cbv zeta.
  destruct (handleServerMessage_render message s) as (_ & _ & Hcw & Hch & Hwi & Hca).
  unfold frame_of in Hca. rewrite Hwi, Hcw, Hch in Hca. split; [exact Hca|].
  destruct (redraws message) eqn:Hr; [|done].
  destruct (worldImage s) as [img|] eqn:Hi; [|done].
  apply handleServerMessage_count; [done|]. by rewrite Hi.
Qed.

(** X12.  When a message makes the handler centre the viewport on an entity
    and the canvas is no larger than the world, the frame painted for that
    message samples the world image inside its bounds: the source rectangle
    starts at the clamped offset and ends within the 2048 by 2048 map. *)
Theorem recentred_paint_in_world (message : ServerMessage) (s : State) (p : Player.t) :
  recentres message s = Some p →
  is_Some (worldImage s) →
  (canvas_width s ≤ worldWidth)%Z → (canvas_height s ≤ worldHeight)%Z →
  let s' := final (handleServerMessage message s) in
  ∃ paint,
    canvas s' = canvas s ++ [paint] ∧
    paint = mkPaint (clamp (Player.x p) (canvas_width s) worldWidth)
                    (clamp (Player.y p) (canvas_height s) worldHeight)
                    (canvas_width s) (canvas_height s) ∧
    in_world paint.
Proof.
  intros Hp [img Hi] Hw Hh. cbv zeta.
  destruct (handleServerMessage_render message s) as (Hx & Hy & Hcw & Hch & Hwi & Hca).
  rewrite (recentres_redraws _ _ _ Hp) in Hca. rewrite Hp in Hx, Hy.
  unfold frame_of in Hca. rewrite Hwi, Hi, Hx, Hy, Hcw, Hch in Hca.
  eexists. split; [exact Hca|]. split; [done|].
  destruct (clamp_bounds (Player.x p) _ _ Hw), (clamp_bounds (Player.y p) _ _ Hh).
  unfold in_world. simpl. repeat split; try done; lra.
Qed.

Lemma recentred_paint_in_world_witness :
  let s := init 800 600 in
  let s' := final (handleServerMessage join_p1 s) in
  recentres join_p1 s = Some p1 ∧
  is_Some (worldImage s) ∧
  (canvas_width s ≤ worldWidth)%Z ∧ (canvas_height s ≤ worldHeight)%Z ∧
  ∃ paint,
    canvas s' = canvas s ++ [paint] ∧
    paint = mkPaint (clamp (Player.x p1) (canvas_width s) worldWidth)
                    (clamp (Player.y p1) (canvas_height s) worldHeight)
                    (canvas_width s) (canvas_height s) ∧
    in_world paint.
Proof.
  cbv zeta.
  assert (Hp : recentres join_p1 (init 800 600) = Some p1) by (vm_compute; reflexivity).
  assert (Hi : is_Some (worldImage (init 800 600))) by (by eexists).
  assert (Hw : (canvas_width (init 800 600) ≤ worldWidth)%Z)
    by (unfold worldWidth; simpl; lia).
  assert (Hh : (canvas_height (init 800 600) ≤ worldHeight)%Z)
    by (unfold worldHeight; simpl; lia).
  split; [exact Hp|]. split; [exact Hi|]. split; [exact Hw|]. split; [exact Hh|].
  exact (recentred_paint_in_world join_p1 (init 800 600) p1 Hp Hi Hw Hh).
Defined.

(** ** Protocol reducer: one message of each kind *)



(** X14.  A [player_joined] message that lacks the player makes the handler
    throw a [TypeError] with nothing but the log written.  One that carries
    the player but lacks the avatar throws after the player has been stored:
    the table keeps the new entry, the catalog is untouched and nothing is
    redrawn.  One that carries both stores both and redraws. *)
Theorem player_joined_outcome (message : ServerMessage) (s : State) :
  action message = "player_joined" →
  let o := handleServerMessage message s in
  let logged := set_console (console s ++ [log_received message]) s in
  match msg_player message, msg_avatar message with
  | None, _ => o = Throws TypeError logged
  | Some p, None =>
      o = Throws TypeError (set_players (<[Player.id p := p]> (players s)) logged)
  | Some p, Some a =>
      throws o = false ∧
      players (final o) = <[Player.id p := p]> (players s) ∧
      avatars (final o) = <[Avatar.name a := a]> (avatars s) ∧
      canvas (final o) = canvas s ++ frame_of (final o)
  end.
Proof.
  intros Ha. cbv zeta.
  destruct (msg_player message) as [p|] eqn:Hp.
  2: { unfold handleServerMessage. rewrite Ha, Hp. by destruct s. }
  destruct (msg_avatar message) as [a|] eqn:Hav.
  2: { unfold handleServerMessage. rewrite Ha, Hp, Hav. by destruct s. }
  split.
  { unfold handleServerMessage, draw. rewrite Ha, Hp, Hav.
    destruct s as [cw ch wi w pid pl av mp vx vy kp cm mi tm nt se co ca].
    monad_unfold. simpl. by destruct wi. }
  destruct (handleServerMessage_players message s) as (_ & Hpl & _).
  pose proof (handleServerMessage_avatars message s) as Hav'.
  destruct (handleServerMessage_render message s) as (_ & _ & _ & _ & _ & Hca).
  unfold redraws in Hca. unfold accepted_join, joined_avatar in *.
  rewrite Ha, Hp, Hav in *. simpl in *. done.
Qed.

Lemma player_joined_outcome_witness :
  let message := mkMessage "player_joined" false "" ∅ ∅ (Some p2) None "" in
  let s := init 800 600 in
  let o := handleServerMessage message s in
  let logged := set_console (console s ++ [log_received message]) s in
  action message = "player_joined" ∧
  o = Throws TypeError (set_players (<[Player.id p2 := p2]> (players s)) logged).
Proof.
  split; [reflexivity|].
  exact (player_joined_outcome
           (mkMessage "player_joined" false "" ∅ ∅ (Some p2) None "")
           (init 800 600) eq_refl).
Defined.

(** X15.  A [player_left] message never makes the handler throw; it removes
    the entry under the identifier it names and leaves the local
    identifier, the catalog, the local player and the viewport alone, then
    redraws.  Naming an identifier that has no entry leaves the whole store
    as it was. *)
Theorem player_left_outcome (message : ServerMessage) (s : State) :
  action message = "player_left" →
  let o := handleServerMessage message s in
  throws o = false ∧
  players (final o) = delete (msg_playerId message) (players s) ∧
  (playerId (final o), avatars (final o), myPlayer (final o),
   viewportX (final o), viewportY (final o)) =
    (playerId s, avatars s, myPlayer s, viewportX s, viewportY s) ∧
  canvas (final o) = canvas s ++ frame_of (final o) ∧
  (players s !! msg_playerId message = None → store (final o) = store s).
Proof.
  intros Ha. cbv zeta.
  assert (Hstore : throws (handleServerMessage message s) = false ∧
    players (final (handleServerMessage message s)) =
      delete (msg_playerId message) (players s) ∧
    (playerId (final (handleServerMessage message s)),
     avatars (final (handleServerMessage message s)),
     myPlayer (final (handleServerMessage message s)),
     viewportX (final (handleServerMessage message s)),
     viewportY (final (handleServerMessage message s))) =
      (playerId s, avatars s, myPlayer s, viewportX s, viewportY s)).
  { unfold handleServerMessage, draw. rewrite Ha.
    destruct s as [cw ch wi w pid pl av mp vx vy kp cm mi tm nt se co ca].
    monad_unfold. simpl. by destruct wi. }
  destruct Hstore as (Ht & Hpl & Hrest).
  split; [done|]. split; [done|]. split; [done|]. split.
  - destruct (handleServerMessage_render message s) as (_ & _ & _ & _ & _ & Hca).
    unfold redraws in Hca. rewrite Ha in Hca. simpl in Hca.
    by rewrite orb_true_r in Hca.
  - intros Habsent. unfold store. injection Hrest as -> -> -> -> ->.
    by rewrite Hpl, delete_id.
Qed.

Lemma player_left_outcome_witness :
  let s := init 800 600 in
  let o := handleServerMessage left_p1 s in
  action left_p1 = "player_left" ∧
  throws o = false ∧
  players (final o) = delete (msg_playerId left_p1) (players s) ∧
  (playerId (final o), avatars (final o), myPlayer (final o),
   viewportX (final o), viewportY (final o)) =
    (playerId s, avatars s, myPlayer s, viewportX s, viewportY s) ∧
  canvas (final o) = canvas s ++ frame_of (final o) ∧
  (players s !! msg_playerId left_p1 = None → store (final o) = store s).
Proof.
  split; [reflexivity|].
  exact (player_left_outcome left_p1 (init 800 600) eq_refl).
Defined.

(** X16.  A player who joins and then leaves is gone from the table without
    a trace: if the identifier had no entry before, the table is afterwards
    what it was.  The avatar definition that came with the player stays in
    the catalog. *)
Theorem joined_then_left (joined gone : ServerMessage) (s : State)
    (p : Player.t) (a : Avatar.t) :
  action joined = "player_joined" →
  msg_player joined = Some p → msg_avatar joined = Some a →
  action gone = "player_left" → msg_playerId gone = Player.id p →
  players s !! Player.id p = None →
  let s' := run [ws_message (Parsed joined); ws_message (Parsed gone)] s in
  players s' = players s ∧
  avatars s' = <[Avatar.name a := a]> (avatars s).
Proof.
  intros Hj Hp Ha Hg Hid Habsent. cbv zeta.
  change (run _ s) with
    (final (handleServerMessage gone (final (handleServerMessage joined s)))).
  destruct (handleServerMessage_players joined s) as (_ & Hpl1 & _).
  pose proof (handleServerMessage_avatars joined s) as Hav1.
  destruct (handleServerMessage_players gone (final (handleServerMessage joined s)))
    as (_ & Hpl2 & _).
  pose proof (handleServerMessage_avatars gone (final (handleServerMessage joined s)))
    as Hav2.
  unfold accepted_join, joined_avatar in *.
  rewrite Hj, Hp in Hpl1. rewrite Hj, Hp, Ha in Hav1. rewrite Hg in Hpl2, Hav2.
  simpl in *.
  rewrite Hpl2, Hav2, Hpl1, Hav1, Hid. split; [|done].
  by apply delete_insert_id.
Qed.

Lemma joined_then_left_witness :
  let gone := mkMessage "player_left" false "p2" ∅ ∅ None None "" in
  let s := run [ws_message (Parsed join_p1)] (init 800 600) in
  let s' := run [ws_message (Parsed joined_p2); ws_message (Parsed gone)] s in
  action joined_p2 = "player_joined" ∧
  msg_player joined_p2 = Some p2 ∧ msg_avatar joined_p2 = Some knight_again ∧
  action gone = "player_left" ∧ msg_playerId gone = Player.id p2 ∧
  players s !! Player.id p2 = None ∧
  players s' = players s ∧
  avatars s' = <[Avatar.name knight_again := knight_again]> (avatars s).
Proof.
  cbv zeta.
  assert (Habsent : players (run [ws_message (Parsed join_p1)] (init 800 600))
                      !! Player.id p2 = None) by (vm_compute; reflexivity).
  do 5 (split; [reflexivity|]). split; [exact Habsent|].
  exact (joined_then_left joined_p2
           (mkMessage "player_left" false "p2" ∅ ∅ None None "")
           _ p2 knight_again eq_refl eq_refl eq_refl eq_refl eq_refl Habsent).
Defined.

(** ** The store along a trace *)

(** X17.  The store and the viewport change only when a frame arrives that
    parses and carries one of the four known tags: no key, focus, timer,
    socket, resize or image event, no text that does not parse and no
    message with another tag changes the identifier, the tables, the local
    player or the viewport. *)
Theorem store_changes_on_known_frames (s : State) (e : Event) :
  store (step s e) ≠ store s →
  ∃ message, e = ws_message (Parsed message) ∧ action message ∈ known_actions.
Proof.
  intros Hne.
  destruct e as [k|k| |id| |[text|message]| | |w h|];
    try (by exfalso; apply Hne, step_store); try (by destruct Hne).
  exists message. split; [done|].
  destruct (decide (action message ∈ known_actions)) as [|Hn]; [done|].
  exfalso. apply Hne. unfold step, listener, onmessage, JSON_parse.
  rewrite (run_bind _ _ s message s eq_refl).
  by rewrite handleServerMessage_unknown.
Qed.

Lemma store_changes_on_known_frames_witness :
  let s := init 800 600 in
  let e := ws_message (Parsed join_p1) in
  store (step s e) ≠ store s ∧
  ∃ message, e = ws_message (Parsed message) ∧ action message ∈ known_actions.
Proof.
  cbv zeta.
  assert (Hne : store (step (init 800 600) (ws_message (Parsed join_p1))) ≠
                store (init 800 600)).
  { intros H. apply (f_equal (λ x, x.1.1.1.1.1)) in H. vm_compute in H. discriminate. }
  split; [exact Hne|].
  exact (store_changes_on_known_frames _ _ Hne).
Defined.

Lemma step_aliased s e :
  aliased s →
  match e with
  | ws_message (Parsed message) => names_local message s = false
  | _ => True
  end →
  aliased (step s e).
Proof.
  intros Hal He.
  assert (Hstore : store (step s e) = store s → aliased (step s e)).
  { unfold store, aliased in *. intros [= -> -> _ -> _ _]. done. }
  destruct e as [k|k| |id| |[text|message]| | |w h|];
    try (by apply Hstore, step_store).
  - done.
  - unfold names_local in He. apply orb_false_iff in He as [Hj Hl].
    apply (handleServerMessage_aliased message s Hal).
    + intros Ha p Hp Hid. rewrite Ha, Hp, Hid, !String.eqb_refl in Hj. done.
    + intros Ha Hid. rewrite Ha, Hid, !String.eqb_refl in Hl. done.
Qed.

(** X18.  Along every trace in which no [player_joined] and no
    [player_left] message names the identifier that is the local one when
    it arrives, [myPlayer] stays the table entry under the local
    identifier. *)
Theorem alias_kept (evs : list Event) (s : State) :
  aliased s → spares_local evs s = true → aliased (run evs s).
Proof.
  revert s. induction evs as [|e evs IH]; intros s Hal Hsp; [done|].
  simpl in *. apply andb_true_iff in Hsp as [He Hrest].
  apply IH; [|done]. apply step_aliased; [done|].
  destruct e as [k|k| |id| |[text|message]| | |w h|]; try done.
  by apply negb_true_iff.
Qed.

Lemma alias_kept_witness :
  let evs := [ws_open; ws_message (Parsed join_p1); keydown "ArrowUp";
              ws_message (Parsed joined_p2); ws_message (Parsed moved_p2);
              resize 1024 768] in
  aliased (init 800 600) ∧ spares_local evs (init 800 600) = true ∧
  aliased (run evs (init 800 600)).
Proof.
  cbv zeta.
  assert (Hal : aliased (init 800 600)) by (vm_compute; reflexivity).
  assert (Hsp : spares_local
                  [ws_open; ws_message (Parsed join_p1); keydown "ArrowUp";
                   ws_message (Parsed joined_p2); ws_message (Parsed moved_p2);
                   resize 1024 768] (init 800 600) = true)
    by (vm_compute; reflexivity).
  split; [exact Hal|]. split; [exact Hsp|].
  exact (alias_kept
           [ws_open; ws_message (Parsed join_p1); keydown "ArrowUp";
            ws_message (Parsed joined_p2); ws_message (Parsed moved_p2);
            resize 1024 768] (init 800 600) Hal Hsp).
Defined.

(** ** The viewport along a trace *)

Lemma clamp_nonneg position surface world : (0 <= clamp position surface world)%Q.
Proof. apply Q.le_max_l. Qed.

Lemma step_canvas s e :
  canvas (step s e) = canvas s ∨
  canvas (step s e) = canvas s ++ frame_of (step s e).
Proof.
  assert (Hdraw : ∀ s0, canvas (final (draw s0)) = canvas s0 ++ frame_of (final (draw s0))).
  { intros [cw ch wi w pid pl av mp vx vy kp cm mi tm nt se co ca].
    unfold draw, frame_of. monad_unfold. simpl.
    destruct wi; simpl; by rewrite ?app_nil_r. }
  destruct e as [k|k| |id| |[text|message]| | |w h|].
  1-5,8-9: left; unfold step;
    match goal with |- canvas (final (listener ?e _)) = _ =>
      assert (Hp : preserves canvas (listener e)); [|apply Hp] end;
    simpl;
    unfold handleKeyDown, handleKeyUp, onblur, resend, onopen, joinGame,
      updateMovement, startContinuousMovement, stopContinuousMovement,
      sendMovementCommand, sendStopCommand; frame.
  - by left.
  - destruct (handleServerMessage_render message s) as (_ & _ & _ & _ & _ & Hca).
    change (step s (ws_message (Parsed message)))
      with (final (handleServerMessage message s)).
    destruct (redraws message); [by right|left]. by rewrite app_nil_r in Hca.
  - right. apply (Hdraw (set_canvas_size w h s)).
  - right. apply Hdraw.
Qed.

Lemma step_viewport s e :
  (0 <= viewportX s)%Q → (0 <= viewportY s)%Q →
  (0 <= viewportX (step s e))%Q ∧ (0 <= viewportY (step s e))%Q.
Proof.
  intros Hx Hy.
  destruct e as [k|k| |id| |[text|message]| | |w h|];
    try (assert (store (step s _) = store s) as [= _ _ _ _ -> ->];
           [by apply step_store|done]).
  - done.
  - destruct (handleServerMessage_render message s) as (Hvx & Hvy & _).
    change (step s (ws_message (Parsed message)))
      with (final (handleServerMessage message s)).
    rewrite Hvx, Hvy. destruct (recentres message s); [|done].
    split; apply clamp_nonneg.
Qed.

(** X19.  The viewport offset is never negative, whatever the positions the
    server reports and however the window is resized, and no frame ever
    painted samples the world image left of or above its origin. *)
Theorem viewport_never_negative (s : State) :
  reachable s →
  (0 <= viewportX s)%Q ∧ (0 <= viewportY s)%Q ∧
  Forall (λ p, (0 <= paint_x p)%Q ∧ (0 <= paint_y p)%Q) (canvas s).
Proof.
  intros (w & h & evs & ->).
  assert (H0 : (0 <= viewportX (init w h))%Q ∧ (0 <= viewportY (init w h))%Q ∧
    Forall (λ p, (0 <= paint_x p)%Q ∧ (0 <= paint_y p)%Q) (canvas (init w h))).
  { simpl. repeat split; try done. }
  revert H0. generalize (init w h). induction evs as [|e evs IH]; intros s H; [done|].
  simpl. apply IH. destruct H as (Hx & Hy & Hc).
  destruct (step_viewport s e Hx Hy) as [Hx' Hy'].
  split; [done|]. split; [done|].
  destruct (step_canvas s e) as [->| ->]; [done|].
  apply Forall_app. split; [done|]. unfold frame_of.
  destruct (worldImage (step s e)); constructor; [done|constructor].
Qed.

Lemma viewport_never_negative_witness :
  let s := run [world_loaded; ws_message (Parsed join_p1); resize 3000 400;
                ws_message (Parsed moved_p2)] (init 800 600) in
  reachable s ∧
  (0 <= viewportX s)%Q ∧ (0 <= viewportY s)%Q ∧
  Forall (λ p, (0 <= paint_x p)%Q ∧ (0 <= paint_y p)%Q) (canvas s).
Proof.
  cbv zeta. split; [apply reachable_run|].
  exact (viewport_never_negative _ (reachable_run _ _ _)).
Defined.

(** ** The world image *)

Lemma step_worldImage s e : worldImage (step s e) = worldImage s.
Proof.
  unfold step. revert s. change (preserves worldImage (listener e)).
  destruct e as [k|k| |id| |[text|message]| | |w h|]; simpl;
    unfold handleKeyDown, handleKeyUp, onblur, resend, onopen, joinGame, onmessage,
      JSON_parse, handleServerMessage, centerViewportOnPlayer, draw,
      updateMovement, startContinuousMovement, stopContinuousMovement,
      sendMovementCommand, sendStopCommand; frame.
Qed.

(** X20.  From the constructor on the world image is set, so the guard at
    the head of [draw] never fires: in every state the client reaches,
    [draw] goes on to paint the world at the current viewport offset and
    canvas size, also while the image is still loading. *)
Theorem draw_always_paints (s : State) :
  reachable s →
  worldImage s = Some "world.jpg" ∧
  canvas (final (draw s)) =
    canvas s ++
    [mkPaint (viewportX s) (viewportY s) (canvas_width s) (canvas_height s)].
Proof.
  intros Hs.
  assert (Hi : worldImage s = Some "world.jpg").
  { destruct Hs as (w & h & evs & ->).
    assert (H0 : worldImage (init w h) = Some "world.jpg") by done.
    revert H0. generalize (init w h).
    induction evs as [|e evs IH]; intros s H; [done|].
    simpl. apply IH. by rewrite step_worldImage. }
  split; [done|]. unfold draw. monad_unfold. rewrite Hi. by destruct s.
Qed.

Lemma draw_always_paints_witness :
  let s := run [ws_open; ws_message (Parsed join_p1)] (init 800 600) in
  reachable s ∧
  worldImage s = Some "world.jpg" ∧
  canvas (final (draw s)) =
    canvas s ++
    [mkPaint (viewportX s) (viewportY s) (canvas_width s) (canvas_height s)].
Proof.
  cbv zeta. split; [apply reachable_run|].
  exact (draw_always_paints _
           (reachable_run 800 600 [ws_open; ws_message (Parsed join_p1)])).
Defined.

(** ** Renderer: sprites *)







Lemma clamp_in_view (position : Q) (surface world : Z) :
  (0 ≤ surface ≤ world)%Z →
  (clamp position surface world - 50 <= position ∧
   position <= clamp position surface world + inject_Z surface + 50)%Q ↔
  (-50 <= position ∧ position <= inject_Z world + 50)%Q.
Proof.
  intros [H0 H1]. rewrite Zle_Qle in H0, H1. unfold clamp.
  set (c := (position - inject_Z surface / 2)%Q).
  set (m := (inject_Z world - inject_Z surface)%Q).
  destruct (Q.min_spec c m) as [[Hlt Hmin]|[Hle Hmin]];
    destruct (Q.max_spec 0 (Qmin c m)) as [[Hlt' Hmax]|[Hle' Hmax]];
    set (N := Qmin c m) in *; set (M := Qmax 0 N) in *; clearbody M N;
    subst c m; change (inject_Z 0) with 0%Q in H0;
    unfold Qdiv in *; change (/ 2)%Q with (1 # 2)%Q in *;
    split; intros [? ?]; split; lra.
Qed.

(** X23.  After the viewport has been centred on the local player, on a
    canvas no larger than the world, the local player passes the culling
    test of [drawAvatar] exactly when the position lies within 50 units of
    the world: the clamping of the viewport never pushes a player who is on
    the map out of view, and a player reported more than 50 units off the
    map is not drawn. *)
Theorem local_player_in_view (s : State) (p : Player.t) :
  myPlayer s = Some p →
  (0 ≤ canvas_width s ≤ worldWidth)%Z →
  (0 ≤ canvas_height s ≤ worldHeight)%Z →
  in_view (final (centerViewportOnPlayer s)) p ↔
    (-50 <= Player.x p ∧ Player.x p <= inject_Z worldWidth + 50)%Q ∧
    (-50 <= Player.y p ∧ Player.y p <= inject_Z worldHeight + 50)%Q.
Proof.
  intros Hp Hw Hh.
  destruct (centerViewportOnPlayer_spec s p Hp)
    as (s' & -> & Hx & Hy & _ & _ & _ & _ & Hcw & Hch & _).
  simpl. unfold in_view. rewrite Hx, Hy, Hcw, Hch.
  rewrite <- (clamp_in_view (Player.x p) _ _ Hw), <- (clamp_in_view (Player.y p) _ _ Hh).
  tauto.
Qed.

Lemma local_player_in_view_witness :
  let s := run [ws_message (Parsed join_p1)] (init 800 600) in
  myPlayer s = Some p1 ∧
  (0 ≤ canvas_width s ≤ worldWidth)%Z ∧
  (0 ≤ canvas_height s ≤ worldHeight)%Z ∧
  (in_view (final (centerViewportOnPlayer s)) p1 ↔
    (-50 <= Player.x p1 ∧ Player.x p1 <= inject_Z worldWidth + 50)%Q ∧
    (-50 <= Player.y p1 ∧ Player.y p1 <= inject_Z worldHeight + 50)%Q).
Proof.
  cbv zeta.
  assert (Hp : myPlayer (run [ws_message (Parsed join_p1)] (init 800 600)) = Some p1)
    by (vm_compute; reflexivity).
  assert (Hw : (0 ≤ canvas_width (run [ws_message (Parsed join_p1)] (init 800 600))
                  ≤ worldWidth)%Z) by (vm_compute; split; discriminate).
  assert (Hh : (0 ≤ canvas_height (run [ws_message (Parsed join_p1)] (init 800 600))
                  ≤ worldHeight)%Z) by (vm_compute; split; discriminate).
  split; [exact Hp|]. split; [exact Hw|]. split; [exact Hh|].
  exact (local_player_in_view _ p1 Hp Hw Hh).
Defined.




